(** * eb-appver-creator: a shallow embedding and its verified properties

    The program packages the working directory into a zip archive, uploads
    it to S3 and registers it as an Elastic Beanstalk application version.
    This development embeds [eb-appver-creator.py] function by function:

    - [Str], [OsPath]: Python string slicing and the [os.path] helpers;
    - [Fs]: a filesystem of regular files and directories, with POSIX path
      resolution ([os.stat], [os.path.isfile], [os.scandir], [os.getcwd]);
    - [Zip]: [zipfile.ZipFile] as the list of its entries;
    - [Run]: exceptions, the logging and event trace, the interface of the
      libraries the script calls, and the state monad it runs in;
    - [Boto]: the three boto3 calls in that monad;
    - [App]: the functions of the script, under their own names;
    - [Sim]: a small orchestrator and bucket, for concrete runs;
    - [Spec]: the predicates the statements are written with.

    The properties follow: strings and paths, path resolution and the
    traversal, the builder, the service calls, the whole run, and then the
    statements about the program with the runs that instantiate or refute
    them. *)

From Stdlib Require Import String Ascii List Bool Arith Lia.
Import ListNotations.
Local Open Scope string_scope.
Local Open Scope list_scope.
Set Warnings "-register-all".

(** ** Python strings *)

Module Str.

(** [s[n:]]: a slice past the end is the empty string. *)
Fixpoint slice_from (n : nat) (s : string) : string :=
  match n, s with
  | O, _ => s
  | S _, EmptyString => EmptyString
  | S n', String _ s' => slice_from n' s'
  end.

Definition is_sep (c : ascii) : bool := Ascii.eqb c "/"%char.

(** [s.startswith("/")] *)
Definition startswith_sep (s : string) : bool :=
  match s with
  | String c _ => is_sep c
  | EmptyString => false
  end.

(** [s.endswith("/")] *)
Fixpoint endswith_sep (s : string) : bool :=
  match s with
  | EmptyString => false
  | String c EmptyString => is_sep c
  | String _ s' => endswith_sep s'
  end.

(** [s.split("/")]: never the empty list. *)
Fixpoint split_sep (s : string) : list string :=
  match s with
  | EmptyString => [EmptyString]
  | String c s' =>
      if is_sep c then EmptyString :: split_sep s'
      else match split_sep s' with
           | [] => [String c EmptyString]
           | h :: t => String c h :: t
           end
  end.

(** ["/".join(comps)] *)
Fixpoint join_sep (comps : list string) : string :=
  match comps with
  | [] => EmptyString
  | [c] => c
  | c :: rest => c ++ "/" ++ join_sep rest
  end.

(** ['/' in s] *)
Fixpoint has_sep (s : string) : bool :=
  match s with
  | EmptyString => false
  | String c s' => is_sep c || has_sep s'
  end.

(** Strip every leading ["/"]. *)
Fixpoint lstrip_sep (s : string) : string :=
  match s with
  | String c s' => if is_sep c then lstrip_sep s' else s
  | EmptyString => EmptyString
  end.

End Str.

(** ** os.path *)

Module OsPath.

(** The path of a [DirEntry]: [os.path.join(scandir_path, entry.name)] for a
    name that is not absolute. A separator is added unless the directory
    path is empty or already ends with one. *)
Definition join (path name : string) : string :=
  match path with
  | EmptyString => name
  | _ => if Str.endswith_sep path then path ++ name else path ++ "/" ++ name
  end.

(** One step of the component loop of [posixpath.normpath]. [rooted] says
    whether the path had initial slashes; [acc] is [new_comps] reversed. *)
Definition norm_step (rooted : bool) (acc : list string) (comp : string)
  : list string :=
  if (comp =? "") || (comp =? ".") then acc
  else if negb (comp =? "..") then comp :: acc
  else match acc with
       | [] => if rooted then acc else comp :: acc
       | last :: before => if last =? ".." then comp :: acc else before
       end.

(** The number of initial slashes [normpath] keeps: two when the path
    starts with exactly two, else one when it starts with one. *)
Definition initial_slashes (path : string) : nat :=
  match path with
  | String a (String b (String c _)) =>
      if Str.is_sep a
      then if Str.is_sep b then if Str.is_sep c then 1 else 2 else 1
      else 0
  | String a (String b EmptyString) =>
      if Str.is_sep a then if Str.is_sep b then 2 else 1 else 0
  | String a EmptyString => if Str.is_sep a then 1 else 0
  | EmptyString => 0
  end.

Fixpoint slashes (n : nat) : string :=
  match n with
  | O => EmptyString
  | S n' => String "/"%char (slashes n')
  end.

(** [posixpath.normpath] *)
Definition normpath (path : string) : string :=
  match path with
  | EmptyString => "."
  | _ =>
      let k := initial_slashes path in
      let comps :=
        rev (fold_left (norm_step (negb (Nat.eqb k 0))) (Str.split_sep path) []) in
      match slashes k ++ Str.join_sep comps with
      | EmptyString => "."
      | p => p
      end
  end.

End OsPath.

(** ** The filesystem *)

Module Fs.

(** A directory tree of regular files and directories. Symbolic links,
    devices, sockets and FIFOs are outside the model, and so are
    permissions and timestamps. *)
Inductive node : Type :=
| File (name : string) (data : string)
| Dir (name : string) (children : list node).

Definition node_name (n : node) : string :=
  match n with
  | File name _ => name
  | Dir name _ => name
  end.

(** What [os.stat] finds at a path. *)
Inductive found : Type :=
| FoundFile (data : string)
| FoundDir (listing : list node).

(** The filesystem a run sees: the listing of ["/"], the working directory
    as its path components ([[]] is ["/"] itself), and the descriptor the
    next [tempfile.TemporaryFile()] gets. The temporary file is unnamed: it
    never shows in a listing. *)
Record t : Type := mk {
  root : list node;
  cwd : list string;
  tmp_fd : nat
}.

Fixpoint find_child (name : string) (listing : list node) : option node :=
  match listing with
  | [] => None
  | n :: rest => if node_name n =? name then Some n else find_child name rest
  end.

(** Resolution of a list of plain names from a directory listing. *)
Fixpoint lookup (listing : list node) (comps : list string) : option found :=
  match comps with
  | [] => Some (FoundDir listing)
  | c :: rest =>
      match find_child c listing with
      | Some (Dir _ sub) => lookup sub rest
      | Some (File _ data) =>
          match rest with
          | [] => Some (FoundFile data)
          | _ :: _ => None
          end
      | None => None
      end
  end.

(** POSIX path resolution, component by component. [cur] is the absolute
    position reached so far; every step needs it to be a directory. Empty
    and ["."] components stay, [".."] goes to the parent (["/"] is its own
    parent), a name goes to that child. *)
Fixpoint walk (r : list node) (cur comps : list string) : option (list string) :=
  match comps with
  | [] => Some cur
  | c :: rest =>
      match lookup r cur with
      | Some (FoundDir listing) =>
          if (c =? "") || (c =? ".") then walk r cur rest
          else if c =? ".." then walk r (removelast cur) rest
          else match find_child c listing with
               | Some _ => walk r (cur ++ [c]) rest
               | None => None
               end
      | _ => None
      end
  end.

(** [os.stat(path)]: [None] is [FileNotFoundError] (or [NotADirectoryError]).
    The empty path names nothing. *)
Definition stat (fs : t) (path : string) : option found :=
  match path with
  | EmptyString => None
  | _ =>
      let start := if Str.startswith_sep path then [] else cwd fs in
      match walk (root fs) start (Str.split_sep path) with
      | Some p => lookup (root fs) p
      | None => None
      end
  end.

(** [os.path.isfile(path)] *)
Definition isfile (fs : t) (path : string) : bool :=
  match stat fs path with
  | Some (FoundFile _) => true
  | _ => false
  end.

(** The contents [open(path).read()] returns, for a regular file. *)
Definition read (fs : t) (path : string) : option string :=
  match stat fs path with
  | Some (FoundFile data) => Some data
  | _ => None
  end.

(** [os.getcwd()]: the absolute path of the working directory, without a
    trailing separator except for the root, which is ["/"]. [None] when the
    working directory is not there. *)
Definition getcwd (fs : t) : option string :=
  match lookup (root fs) (cwd fs) with
  | Some (FoundDir _) => Some ("/" ++ Str.join_sep (cwd fs))%string
  | _ => None
  end.

(** The listing [os.scandir] iterates for the working directory. *)
Definition cwd_listing (fs : t) : list node :=
  match lookup (root fs) (cwd fs) with
  | Some (FoundDir listing) => listing
  | _ => []
  end.

(** [os.DirEntry]: only [path] is read by the program. [is_dir()] is
    [false] for every entry [_scantree] yields. *)
Record DirEntry : Type := mkEntry {
  path : string
}.

(** *** Well-formed trees: what a real directory can hold *)

Definition valid_name (name : string) : bool :=
  negb (name =? "") && negb (name =? ".") && negb (name =? "..")
  && negb (Str.has_sep name).

Fixpoint distinct (names : list string) : bool :=
  match names with
  | [] => true
  | x :: rest => negb (existsb (String.eqb x) rest) && distinct rest
  end.

Fixpoint wf_node (n : node) : bool :=
  match n with
  | File name _ => valid_name name
  | Dir name sub =>
      valid_name name && distinct (map node_name sub) && forallb wf_node sub
  end.

Definition wf_listing (listing : list node) : bool :=
  distinct (map node_name listing) && forallb wf_node listing.

(** *** The regular files of a tree, as the specification speaks of them *)

(** Every regular file under a node, with the names leading to it from the
    directory that holds the node, and its contents. *)
Fixpoint files_of_node (n : node) : list (list string * string) :=
  match n with
  | File name data => [([name], data)]
  | Dir name sub =>
      map (fun f => (name :: fst f, snd f)) (flat_map files_of_node sub)
  end.

Definition files_under (listing : list node) : list (list string * string) :=
  flat_map files_of_node listing.

(** Every directory under a node, with the names leading to it. *)
Fixpoint dirs_of_node (n : node) : list (list string) :=
  match n with
  | File _ _ => []
  | Dir name sub =>
      [name] :: map (cons name) (flat_map dirs_of_node sub)
  end.

Definition dirs_under (listing : list node) : list (list string) :=
  flat_map dirs_of_node listing.

End Fs.

(** ** zipfile.ZipFile *)

Module Zip.

(** Exceptions [ZipFile.write] raises in this model. *)
Inductive error : Type :=
| FileNotFoundError (filename : string)
| IndexError.

(** One member of the archive. A directory member has a name that ends
    with ["/"] and no data. *)
Record entry : Type := mkEntry {
  arcname : string;
  is_dir : bool;
  data : string
}.

(** An open [ZipFile]: its members in the order they were written. *)
Definition zipfile : Type := list entry.

(** [zipf.namelist()] *)
Definition namelist (zipf : zipfile) : list string := map arcname zipf.

(** The archive name [ZipInfo.from_file] gives [filename]: its normal form
    without leading separators; indexing the first character of an empty
    name raises [IndexError]. *)
Definition arcname_of (filename : string) : error + string :=
  match Str.lstrip_sep (OsPath.normpath filename) with
  | EmptyString => inl IndexError
  | name => inr name
  end.

(** [zipf.write(filename)]: stat the file, name the member, and store the
    directory marker or the file's bytes. *)
Definition write (fs : Fs.t) (zipf : zipfile) (filename : string)
  : error + zipfile :=
  match Fs.stat fs filename with
  | None => inl (FileNotFoundError filename)
  | Some st =>
      match arcname_of filename with
      | inl e => inl e
      | inr name =>
          match st with
          | Fs.FoundDir _ => inr (zipf ++ [mkEntry (name ++ "/")%string true ""])
          | Fs.FoundFile bytes => inr (zipf ++ [mkEntry name false bytes])
          end
      end
  end.

End Zip.

(** ** Exceptions, events and the monad of a run *)

Module Run.

(** What a boto3 call raises: [botocore.exceptions.ClientError], with the
    text of [e.response["Error"]["Message"]], or any other exception of the
    client (connection failures, [S3UploadFailedError], ...). *)
Inductive boto_error : Type :=
| BotoClientError (message : string)
| BotoOtherError (descr : string).

(** The exceptions of a run. [ProgramError] is the script's own class. *)
Inductive exn : Type :=
| ProgramError (msg : string)
| ClientError (message : string)
| OtherBotoError (descr : string)
| FileNotFoundError (filename : string)
| IndexError.

Definition of_boto (e : boto_error) : exn :=
  match e with
  | BotoClientError message => ClientError message
  | BotoOtherError descr => OtherBotoError descr
  end.

Definition of_zip (e : Zip.error) : exn :=
  match e with
  | Zip.FileNotFoundError filename => FileNotFoundError filename
  | Zip.IndexError => IndexError
  end.

(** [logging] levels, in increasing severity. *)
Inductive level : Type := DEBUG | INFO | WARNING.

Definition severity (l : level) : nat :=
  match l with
  | DEBUG => 10
  | INFO => 20
  | WARNING => 30
  end.

(** An argument of a lazily formatted logging call. *)
Inductive logarg : Type :=
| ArgStr (s : string)
| ArgNat (n : nat).

(** The temporary file: its descriptor, the archive written to it, and
    whether the read position is at the start. *)
Record fileobj : Type := mkFile {
  fd : nat;
  content : Zip.zipfile;
  at_start : bool
}.

(** The bytes a reader gets from the current position: the whole archive
    from the start, nothing from the end. *)
Definition read_rest (f : fileobj) : option Zip.zipfile :=
  if at_start f then Some (content f) else None.

(** Everything a run does that can be seen from outside, in order: the
    log records handled, the lines printed, the temporary file made, the
    archive closed ([Sealed], with the members it holds then), and each
    request to a service with its response. *)
Inductive event : Type :=
| Log (lvl : level) (fmt : string) (args : list logarg)
| Print (line : string)
| TempFile (descriptor : nat)
| Sealed (archive : Zip.zipfile)
| Describe (application : string) (labels : list string)
    (response : boto_error + list string)
| Upload (bucket key : string) (body : option Zip.zipfile)
    (failure : option boto_error)
| Create (application label description bucket key : string)
    (failure : option boto_error).

(** The collaborators the script calls and does not define: the ignore
    file parser and the two AWS clients, over a state [cloud] of their own.
    [parse_gitignore] gets the working directory and the contents of the
    ignore file, and gives the matcher. [upload_fileobj] also gives the
    byte counts it reports to its callback. *)
Class External : Type := {
  cloud : Type;
  parse_gitignore : string -> string -> string -> bool;
  describe_application_versions :
    cloud -> string -> list string -> boto_error + list string;
  upload_fileobj :
    cloud -> string -> string -> option Zip.zipfile ->
    list nat * option boto_error * cloud;
  create_application_version :
    cloud -> string -> string -> string -> string -> string ->
    option boto_error * cloud
}.

Section Monad.

Context {ext : External}.

(** The state of a run: the filesystem (never written by the script), the
    services, the threshold of the root logger and the events so far. *)
Record state : Type := mkState {
  fs : Fs.t;
  svc : cloud;
  log_level : level;
  trace : list event
}.

(** A computation returns a value or raises, and leaves a state. *)
Definition M (A : Type) : Type := state -> (exn + A) * state.

Definition ret {A : Type} (a : A) : M A := fun s => (inr a, s).

Definition raise {A : Type} (e : exn) : M A := fun s => (inl e, s).

Definition bind {A B : Type} (m : M A) (k : A -> M B) : M B :=
  fun s =>
    match m s with
    | (inr a, s') => k a s'
    | (inl e, s') => (inl e, s')
    end.

(** [try: m except: handler] *)
Definition try_except {A : Type} (m : M A) (handler : exn -> M A) : M A :=
  fun s =>
    match m s with
    | (inr a, s') => (inr a, s')
    | (inl e, s') => handler e s'
    end.

Definition emit (e : event) : M unit :=
  fun s => (inr tt, mkState (fs s) (svc s) (log_level s) (trace s ++ [e])).

(** [logging.basicConfig(level=lvl)] *)
Definition basicConfig (lvl : level) : M unit :=
  fun s => (inr tt, mkState (fs s) (svc s) lvl (trace s)).

(** [logging.debug], [logging.info], [logging.warning]: the record is
    handled when its level reaches the threshold. *)
Definition logging (lvl : level) (fmt : string) (args : list logarg) : M unit :=
  fun s =>
    if Nat.leb (severity (log_level s)) (severity lvl)
    then emit (Log lvl fmt args) s
    else (inr tt, s).

Definition get_fs : M Fs.t := fun s => (inr (fs s), s).

End Monad.

End Run.

Declare Scope run_scope.
Delimit Scope run_scope with run.
Notation "x <- m ;; k" := (Run.bind m (fun x => k))
  (at level 61, m at next level, right associativity) : run_scope.
Notation "m ;; k" := (Run.bind m (fun _ => k))
  (at level 61, right associativity) : run_scope.

(** ** The boto3 calls, in the monad *)

Module Boto.

Import Run.

Section Calls.

Context {ext : External}.

Local Open Scope run_scope.

Definition set_svc (c : cloud) : M unit :=
  fun s => (inr tt, mkState (fs s) c (log_level s) (trace s)).

Definition get_svc : M cloud := fun s => (inr (svc s), s).

(** [eb.describe_application_versions(ApplicationName=, VersionLabels=)]:
    the labels of [resp["ApplicationVersions"]]. *)
Definition describe (application : string) (labels : list string)
  : M (list string) :=
  c <- get_svc ;;
  let response := describe_application_versions c application labels in
  emit (Describe application labels response) ;;
  match response with
  | inl e => raise (of_boto e)
  | inr versions => ret versions
  end.

Fixpoint each_progress (callback : nat -> M unit) (counts : list nat) : M unit :=
  match counts with
  | [] => ret tt
  | n :: rest => callback n ;; each_progress callback rest
  end.

(** [s3.Object(bucket, key).upload_fileobj(fileobj, Callback=callback)]: the
    object is read from the current position of [fileobj]. *)
Definition upload (bucket key : string) (f : fileobj)
    (callback : nat -> M unit) : M unit :=
  c <- get_svc ;;
  match upload_fileobj c bucket key (read_rest f) with
  | (counts, failure, c') =>
      set_svc c' ;;
      each_progress callback counts ;;
      emit (Upload bucket key (read_rest f) failure) ;;
      match failure with
      | Some e => raise (of_boto e)
      | None => ret tt
      end
  end.

(** [eb.create_application_version(ApplicationName=, VersionLabel=,
    Description=, SourceBundle={"S3Bucket": , "S3Key": })] *)
Definition create (application label description bucket key : string)
  : M unit :=
  c <- get_svc ;;
  match create_application_version c application label description bucket key with
  | (failure, c') =>
      set_svc c' ;;
      emit (Create application label description bucket key failure) ;;
      match failure with
      | Some e => raise (of_boto e)
      | None => ret tt
      end
  end.

End Calls.

End Boto.

(** ** The script *)

Module App.

Import Run.

(** The namespace [parse_args] returns. *)
Record Args : Type := mkArgs {
  application : string;
  label : string;
  s3_bucket : string;
  description : string;
  debug : bool;
  existing_appver_is_error : bool
}.

(** How the process ends. *)
Inductive outcome : Type :=
| Returned
| SystemExit (code : nat)
| Uncaught (e : exn).

(** The exit status of the interpreter: 0 when the script runs to its end,
    the argument of [sys.exit], 1 after an exception nobody caught. *)
Definition exit_code (o : outcome) : nat :=
  match o with
  | Returned => 0
  | SystemExit code => code
  | Uncaught _ => 1
  end.

(** The interpreter prints a stack trace for an uncaught exception only. *)
Definition stack_trace (o : outcome) : bool :=
  match o with
  | Uncaught _ => true
  | _ => false
  end.

(** The loop body of [_scantree] for one entry of [os.scandir(path)]: a
    directory is descended into, anything else is yielded. *)
Fixpoint scan_entry (path : string) (n : Fs.node) : list Fs.DirEntry :=
  match n with
  | Fs.Dir name sub => flat_map (scan_entry (OsPath.join path name)) sub
  | Fs.File name _ => [Fs.mkEntry (OsPath.join path name)]
  end.

(** [_scantree(path)], where [listing] is what [os.scandir(path)] iterates. *)
Definition _scantree (path : string) (listing : list Fs.node)
  : list Fs.DirEntry :=
  flat_map (scan_entry path) listing.

(** [application + "/" + label + ".zip"] *)
Definition s3_key_of (application label : string) : string :=
  application ++ "/" ++ label ++ ".zip".

(** ["Application Version %s already exists." % label] *)
Definition already_exists_message (label : string) : string :=
  "Application Version " ++ label ++ " already exists.".

Section Script.

Context {ext : External}.

Local Open Scope run_scope.

(** [gitignore_parser.parse_gitignore(name)] for an ignore file of the
    working directory. *)
Definition parse_ignore_file (fs : Fs.t) (name : string) : string -> bool :=
  parse_gitignore ("/" ++ Str.join_sep (Fs.cwd fs))%string
    match Fs.read fs name with
    | Some contents => contents
    | None => EmptyString
    end.

(** The first lines of [_add_files_to_zipfile]: the choice of
    [ignore_matches]. *)
Definition load_ignore_matches : M (string -> bool) :=
  fs <- get_fs ;;
  if Fs.isfile fs ".ebignore" then
    logging INFO "Using .ebignore" [] ;;
    ret (parse_ignore_file fs ".ebignore")
  else if Fs.isfile fs ".gitignore" then
    logging INFO "Using .gitignore" [] ;;
    ret (parse_ignore_file fs ".gitignore")
  else
    logging INFO "Couldn't find .ebignore or .gitignore" [] ;;
    ret (fun _ => false).

Definition getcwd : M string :=
  fs <- get_fs ;;
  match Fs.getcwd fs with
  | Some p => ret p
  | None => raise (FileNotFoundError EmptyString)
  end.

Definition zip_write (zipf : Zip.zipfile) (filename : string) : M Zip.zipfile :=
  fs <- get_fs ;;
  match Zip.write fs zipf filename with
  | inl e => raise (of_zip e)
  | inr zipf' => ret zipf'
  end.

(** The [for entry in _scantree(base_dir)] loop of [_add_files_to_zipfile]. *)
Fixpoint add_entries (ignore_matches : string -> bool) (base_dir : string)
    (entries : list Fs.DirEntry) (zipf : Zip.zipfile) : M Zip.zipfile :=
  match entries with
  | [] => ret zipf
  | entry :: rest =>
      let relative_path :=
        Str.slice_from (String.length base_dir + 1) (Fs.path entry) in
      if ignore_matches (Fs.path entry) then
        logging DEBUG "Ignoring %s based on .ebignore" [ArgStr relative_path] ;;
        add_entries ignore_matches base_dir rest zipf
      else
        logging DEBUG "Adding %s to zipfile" [ArgStr relative_path] ;;
        zipf' <- zip_write zipf relative_path ;;
        add_entries ignore_matches base_dir rest zipf'
  end.

Definition _add_files_to_zipfile (zipf : Zip.zipfile) : M Zip.zipfile :=
  ignore_matches <- load_ignore_matches ;;
  base_dir <- getcwd ;;
  fs <- get_fs ;;
  zipf' <- add_entries ignore_matches base_dir
             (_scantree base_dir (Fs.cwd_listing fs)) zipf ;;
  logging INFO "Created zipfile with %s items"
          [ArgNat (List.length (Zip.namelist zipf'))] ;;
  ret zipf'.

(** [zipf] is one object, and a [zipf.write] that raises leaves in it what
    was written before: [written] is what the archive holds when the loop
    stops, at its end or at the first write that raises. *)
Fixpoint written (ignore_matches : string -> bool) (base_dir : string)
    (entries : list Fs.DirEntry) (zipf : Zip.zipfile) (files : Fs.t)
  : Zip.zipfile :=
  match entries with
  | [] => zipf
  | entry :: rest =>
      let relative_path :=
        Str.slice_from (String.length base_dir + 1) (Fs.path entry) in
      if ignore_matches (Fs.path entry) then
        written ignore_matches base_dir rest zipf files
      else
        match Zip.write files zipf relative_path with
        | inl _ => zipf
        | inr zipf' => written ignore_matches base_dir rest zipf' files
        end
  end.

(** What the archive holds when [_add_files_to_zipfile(zipf)] stops, by
    returning or by raising: nothing more than before when there is no
    working directory to scan. *)
Definition left_in (zipf : Zip.zipfile) (s : state) : Zip.zipfile :=
  match fst (load_ignore_matches s), Fs.getcwd (fs s) with
  | inr ignore_matches, Some base_dir =>
      written ignore_matches base_dir
        (_scantree base_dir (Fs.cwd_listing (fs s))) zipf (fs s)
  | _, _ => zipf
  end.

(** [ZipFile.__exit__] after an exception in the body of its [with]: the
    archive is closed with what it holds, and the exception goes on. *)
Definition close_and_reraise {A : Type} (zipf : Zip.zipfile) (e : exn) : M A :=
  fun s => (emit (Sealed (left_in zipf s)) ;; raise e) s.

(** [with create_zipfile() as fileobj: body]. The archive is built and
    closed before the body runs; the read position is then at the end.
    When the builder raises, the archive is closed as well, the body does
    not run and the exception leaves the [with] statement. *)
Definition create_zipfile {A : Type} (body : fileobj -> M A) : M A :=
  fs <- get_fs ;;
  emit (TempFile (Fs.tmp_fd fs)) ;;
  logging DEBUG "Created temporary file (fd: %s)" [ArgNat (Fs.tmp_fd fs)] ;;
  zipf <- try_except (_add_files_to_zipfile []) (close_and_reraise []) ;;
  emit (Sealed zipf) ;;
  logging DEBUG "Closed zipfile" [] ;;
  r <- body (mkFile (Fs.tmp_fd fs) zipf false) ;;
  logging DEBUG "Closed raw file" [] ;;
  ret r.

(** [fileobj.seek(0)] *)
Definition seek0 (f : fileobj) : fileobj := mkFile (fd f) (content f) true.

Definition _log_upload_progress (bytes : nat) : M unit :=
  logging INFO "S3 upload has uploaded %s bytes..." [ArgNat bytes].

Definition upload_appver (f : fileobj) (application label s3_bucket : string)
  : M string :=
  let s3_key := s3_key_of application label in
  logging INFO "Uploading appver with source fd %s to s3://%s/%s"
          [ArgNat (fd f); ArgStr s3_bucket; ArgStr s3_key] ;;
  Boto.upload s3_bucket s3_key f _log_upload_progress ;;
  ret s3_key.

Definition create_appver (application s3_bucket s3_key label description : string)
    (existing_appver_is_error : bool) : M unit :=
  logging INFO "Creating application version" [] ;;
  try_except
    (Boto.create application label description s3_bucket s3_key)
    (fun e =>
       match e with
       | ClientError msg =>
           if (msg =? already_exists_message label)%string then
             if existing_appver_is_error then raise e
             else
               logging WARNING
                 ("The application version '" ++ label
                  ++ "' was created before we could upload it.")%string []
           else ret tt
       | _ => raise e
       end).

Definition appver_exists (application label : string) : M bool :=
  versions <- Boto.describe application [label] ;;
  ret (Nat.ltb 0 (List.length versions)).

Definition main (args : Args) : M unit :=
  basicConfig (if debug args then DEBUG else INFO) ;;
  found <- appver_exists (application args) (label args) ;;
  if found then
    if existing_appver_is_error args then
      raise (ProgramError
               ("Application version '" ++ label args ++ "' already exists!")%string)
    else
      logging INFO "Application version '%s' already exists." [ArgStr (label args)]
  else
    s3_key <- create_zipfile (fun fileobj =>
                upload_appver (seek0 fileobj) (application args) (label args)
                              (s3_bucket args)) ;;
    create_appver (application args) (s3_bucket args) s3_key (label args)
                  (description args) (existing_appver_is_error args) ;;
    logging INFO "All done!" [].

(** The [if __name__ == "__main__"] block: a [ProgramError] is printed and
    becomes [sys.exit(1)]; any other exception leaves the script uncaught. *)
Definition script (args : Args) (s : state) : outcome * state :=
  match main args s with
  | (inr _, s') => (Returned, s')
  | (inl (ProgramError msg), s') =>
      (SystemExit 1, snd (emit (Print msg) s'))
  | (inl e, s') => (Uncaught e, s')
  end.

End Script.

End App.

(** ** A small stand-in for the services, for concrete runs *)

Module Sim.

Import Run.

(** The orchestrator and the bucket: the registered (application, label)
    pairs, the (bucket, key) objects stored, and a failure the next
    [create_application_version] answers with, whatever the request. *)
Record cloud : Type := mkCloud {
  versions : list (string * string);
  objects : list (string * string);
  create_failure : option boto_error
}.

Definition registered (c : cloud) (application label : string) : bool :=
  existsb (fun v => (fst v =? application) && (snd v =? label)) (versions c).

(** The ignore file holds one anchored pattern: the name of one entry of
    the directory the file is in. As [gitignore_parser] does, the matcher
    takes a path that is not absolute as relative to the working directory.
    This is a stand-in that lets the concrete runs compute; the general
    statements hold for every parser. *)
Definition parse (base_dir contents path : string) : bool :=
  (if Str.startswith_sep path then path else base_dir ++ "/" ++ path)
  =? base_dir ++ "/" ++ contents.

Definition describe (c : cloud) (application : string) (labels : list string)
  : boto_error + list string :=
  inr (filter (fun l => registered c application l) labels).

Definition upload (c : cloud) (bucket key : string) (body : option Zip.zipfile)
  : list nat * option boto_error * cloud :=
  ([match body with Some z => List.length z | None => 0 end], None,
   mkCloud (versions c) ((bucket, key) :: objects c) (create_failure c)).

Definition create (c : cloud) (application label description bucket key : string)
  : option boto_error * cloud :=
  match create_failure c with
  | Some e => (Some e, mkCloud (versions c) (objects c) None)
  | None =>
      if registered c application label
      then (Some (BotoClientError (App.already_exists_message label)), c)
      else (None, mkCloud ((application, label) :: versions c) (objects c) None)
  end.

Definition services : External := {|
  Run.cloud := cloud;
  parse_gitignore := parse;
  describe_application_versions := describe;
  upload_fileobj := upload;
  create_application_version := create
|}.

(** A fresh process: the root logger starts at [WARNING]. *)
Definition start (fs : Fs.t) (c : cloud) : @state services :=
  @mkState services fs c WARNING [].

(** [/srv/app] holds [app.py], [static/site.css], an empty [logs/] and an
    [.ebignore] that excludes [app.py]. *)
Definition project : list Fs.node :=
  [Fs.File "app.py" "print(1)";
   Fs.Dir "static" [Fs.File "site.css" "body{}"];
   Fs.Dir "logs" [];
   Fs.File ".ebignore" "app.py"].

Definition project_fs : Fs.t :=
  Fs.mk [Fs.Dir "srv" [Fs.Dir "app" project]; Fs.Dir "tmp" []] ["srv"; "app"] 3.

(** [/srv/empty] holds nothing. *)
Definition empty_fs : Fs.t :=
  Fs.mk [Fs.Dir "srv" [Fs.Dir "empty" []]] ["srv"; "empty"] 3.

(** The script started in ["/"], which holds the file [ab] and the empty
    directory [b]. *)
Definition slash_fs : Fs.t :=
  Fs.mk [Fs.File "ab" "data"; Fs.Dir "b" []] [] 3.

Definition nothing_registered : cloud := mkCloud [] [] None.

Definition v42_registered : cloud := mkCloud [("myapp", "v42")] [] None.

(** Another publisher registers [v42] between the existence check and the
    registration. *)
Definition v42_raced : cloud :=
  mkCloud [] [] (Some (BotoClientError "Application Version v42 already exists.")).

(** The orchestrator refuses the registration for another reason. *)
Definition v42_refused : cloud :=
  mkCloud [] [] (Some (BotoClientError "No Application named 'myapp' found.")).

Definition args (strict dbg : bool) : App.Args :=
  App.mkArgs "myapp" "v42" "bkt" "" dbg strict.

(** In [/srv/app], nothing registered yet. *)
Definition fresh : @state services := start project_fs nothing_registered.

(** In [/srv/app], [myapp] [v42] registered. *)
Definition registered_v42 : @state services := start project_fs v42_registered.

(** In [/srv/app], [v42] registered by somebody else after the check. *)
Definition raced : @state services := start project_fs v42_raced.

(** In [/srv/app], the orchestrator refuses the registration. *)
Definition refused : @state services := start project_fs v42_refused.

(** In the empty [/srv/empty]. *)
Definition in_empty : @state services := start empty_fs nothing_registered.

(** In ["/"]. *)
Definition in_root : @state services := start slash_fs nothing_registered.

End Sim.

(** ** Predicates the statements use *)

Module Spec.

(** A plain name: not empty and without separator. *)
Definition plain (c : string) : Prop :=
  c <> EmptyString /\ Str.has_sep c = false.

(** What a node holds at the names [rest] below it. *)
Definition lookup_node (n : Fs.node) (rest : list string) : option Fs.found :=
  match n with
  | Fs.Dir _ sub => Fs.lookup sub rest
  | Fs.File _ data =>
      match rest with
      | [] => Some (Fs.FoundFile data)
      | _ :: _ => None
      end
  end.

Import Run.

Definition is_log (e : event) : bool :=
  match e with
  | Log _ _ _ => true
  | _ => false
  end.

(** What is left of a trace without its log records: the temporary file,
    the archive, the requests with their responses, the lines printed. *)
Definition actions (tr : list event) : list event :=
  filter (fun e => negb (is_log e)) tr.

(** The events of publishing: the temporary file, the archive, the upload
    and the registration. *)
Definition publishes (e : event) : bool :=
  match e with
  | TempFile _ | Sealed _ | Upload _ _ _ _ | Create _ _ _ _ _ _ => true
  | _ => false
  end.

(** What [create_appver] makes of the response of the orchestrator, as the
    way the process ends. *)
Definition registration_outcome (strict : bool) (label : string)
    (failure : option boto_error) : App.outcome :=
  match failure with
  | None => App.Returned
  | Some (BotoClientError msg) =>
      if msg =? App.already_exists_message label then
        if strict then App.Uncaught (ClientError msg) else App.Returned
      else App.Returned
  | Some (BotoOtherError descr) => App.Uncaught (OtherBotoError descr)
  end.

(** What the top level makes of an exception. *)
Definition top_level (e : exn) : App.outcome * list event :=
  match e with
  | ProgramError msg => (App.SystemExit 1, [Print msg])
  | _ => (App.Uncaught e, [])
  end.

Section WithServices.

Context {ext : External}.

(** [s'] is [s] after log records only. *)
Definition logged (s s' : state) : Prop :=
  fs s' = fs s /\ svc s' = svc s /\ log_level s' = log_level s
  /\ exists logs, trace s' = trace s ++ logs /\ actions logs = [].

(** [s'] is [s] after the actions [acts], log records aside, with the
    services left in state [c]. *)
Definition run_to (s s' : state) (c : cloud) (acts : list event) : Prop :=
  fs s' = fs s /\ svc s' = c
  /\ exists new, trace s' = trace s ++ new /\ actions new = acts.

(** A computation that reads the filesystem and writes log records, and
    nothing else: its result depends on the filesystem only. *)
Definition quiet {A : Type} (m : M A) : Prop :=
  (forall s, logged s (snd (m s)))
  /\ (forall s1 s2, fs s1 = fs s2 -> fst (m s1) = fst (m s2)).

(** The archive the builder makes of the filesystem of [s], or the
    exception it raises. *)
Definition build (s : state) : exn + Zip.zipfile :=
  fst (App._add_files_to_zipfile [] s).

(** The whole run at a glance: how the process ends, the state the services
    are left in, and the actions in order. *)
Definition pipeline (args : App.Args) (s : state)
  : App.outcome * cloud * list event :=
  let application := App.application args in
  let label := App.label args in
  let bucket := App.s3_bucket args in
  let key := App.s3_key_of application label in
  let found := describe_application_versions (svc s) application [label] in
  let asked := Describe application [label] found in
  match found with
  | inl e => (App.Uncaught (of_boto e), svc s, [asked])
  | inr (_ :: _) =>
      if App.existing_appver_is_error args
      then (App.SystemExit 1, svc s,
            [asked;
             Print ("Application version '" ++ label ++ "' already exists!")])
      else (App.Returned, svc s, [asked])
  | inr [] =>
      let made := TempFile (Fs.tmp_fd (fs s)) in
      match build s with
      | inl e =>
          (fst (top_level e), svc s,
           [asked; made; Sealed (App.left_in [] s)] ++ snd (top_level e))
      | inr zipf =>
          match upload_fileobj (svc s) bucket key (Some zipf) with
          | (_, Some e, c1) =>
              (App.Uncaught (of_boto e), c1,
               [asked; made; Sealed zipf; Upload bucket key (Some zipf) (Some e)])
          | (_, None, c1) =>
              match create_application_version
                      c1 application label (App.description args) bucket key with
              | (failure, c2) =>
                  (registration_outcome
                     (App.existing_appver_is_error args) label failure,
                   c2,
                   [asked; made; Sealed zipf;
                    Upload bucket key (Some zipf) None;
                    Create application label (App.description args) bucket key
                           failure])
              end
          end
      end
  end.

(** The contents of the ignore file [name], when the working directory
    holds a regular file of that name. *)
Definition ignore_file (fs : Fs.t) (name : string) : option string :=
  match Fs.find_child name (Fs.cwd_listing fs) with
  | Some (Fs.File _ rules) => Some rules
  | _ => None
  end.

(** The events a run that starts in [s] and stops in [s'] added. *)
Definition new_events (s s' : state) : list event :=
  skipn (List.length (trace s)) (trace s').

(** How the script ends, what it does and how it leaves the services,
    started with [args] in state [s]. *)
Definition outcome_of (args : App.Args) (s : state) : App.outcome :=
  fst (App.script args s).

Definition actions_of (args : App.Args) (s : state) : list event :=
  actions (new_events s (snd (App.script args s))).

Definition services_after (args : App.Args) (s : state) : cloud :=
  svc (snd (App.script args s)).

(** A run that only asks whether the version exists, is told [versions],
    and ends with status 0. *)
Definition noop (args : App.Args) (s : state) (versions : list string) : Prop :=
  outcome_of args s = App.Returned
  /\ App.exit_code (outcome_of args s) = 0
  /\ actions_of args s
     = [Describe (App.application args) [App.label args] (inr versions)]
  /\ existsb publishes (actions_of args s) = false
  /\ services_after args s = svc s.

(** The orchestrator lists a version once it has accepted its creation. *)
Definition created_are_described : Prop :=
  forall c application label description bucket key c',
    create_application_version c application label description bucket key
    = (None, c') ->
    exists versions,
      describe_application_versions c' application [label] = inr versions
      /\ versions <> [].

End WithServices.

End Spec.

(** ** Services with fixed answers, for runs in which a call fails *)

Module Scripted.

Import Run.

(** What each of the three calls answers, whatever it is asked. *)
Record answers : Type := mkAnswers {
  described : boto_error + list string;
  upload_failure : option boto_error;
  create_failure : option boto_error
}.

Definition services : External := {|
  Run.cloud := answers;
  parse_gitignore := fun _ _ _ => false;
  describe_application_versions := fun c _ _ => described c;
  upload_fileobj := fun c _ _ _ => ([], upload_failure c, c);
  create_application_version := fun c _ _ _ _ _ => (create_failure c, c)
|}.

Definition start (fs : Fs.t) (c : answers) : @state services :=
  @mkState services fs c WARNING [].

(** The orchestrator cannot be reached. *)
Definition unreachable : answers :=
  mkAnswers (inl (BotoOtherError "EndpointConnectionError")) None None.

(** The bucket refuses the object. *)
Definition bucket_denied : answers :=
  mkAnswers (inr []) (Some (BotoClientError "Access Denied")) None.

(** Everything is accepted. *)
Definition accepting : answers := mkAnswers (inr []) None None.

(** The script started in ["/"], which holds the one file [a]. *)
Definition lonely_root_fs : Fs.t := Fs.mk [Fs.File "a" "x"] [] 3.

(** [/srv/plain] holds [a/b.txt], [c.txt] and an empty [d/], and no ignore
    file. *)
Definition plain : list Fs.node :=
  [Fs.Dir "a" [Fs.File "b.txt" "B"]; Fs.File "c.txt" "C"; Fs.Dir "d" []].

Definition plain_fs : Fs.t :=
  Fs.mk [Fs.Dir "srv" [Fs.Dir "plain" plain]] ["srv"; "plain"] 3.

End Scripted.

(** ** Predicates on events and computations *)

Module Shape.

Import Run.

Definition is_describe (e : event) : bool :=
  match e with Describe _ _ _ => true | _ => false end.

Definition is_upload (e : event) : bool :=
  match e with Upload _ _ _ _ => true | _ => false end.

Definition is_create (e : event) : bool :=
  match e with Create _ _ _ _ _ _ => true | _ => false end.

Definition is_print (e : event) : bool :=
  match e with Print _ => true | _ => false end.

Definition is_debug_record (e : event) : bool :=
  match e with Log DEBUG _ _ => true | _ => false end.

(** A log record of [e] is one a logger at threshold [lvl] handles. *)
Definition handled_at (lvl : level) (e : event) : bool :=
  match e with
  | Log l _ _ => Nat.leb (severity lvl) (severity l)
  | _ => true
  end.

Section WithServices.

Context {ext : External}.

(** A computation that never raises [ProgramError]. *)
Definition no_program_error {A : Type} (m : M A) : Prop :=
  forall s msg, fst (m s) <> inl (ProgramError msg).

(** A computation that keeps the threshold of the logger, only adds to the
    trace, and adds no log record below the threshold. *)
Definition leveled {A : Type} (m : M A) : Prop :=
  forall s,
    log_level (snd (m s)) = log_level s
    /\ exists new,
         trace (snd (m s)) = trace s ++ new
         /\ forallb (handled_at (log_level s)) new = true.

End WithServices.

End Shape.

(** * Properties *)

(** ** Strings and paths *)

Module StrFacts.

Import Str Spec.

Lemma length_app (a b : string) :
  String.length (a ++ b) = String.length a + String.length b.
Proof. induction a as [|c a IH]; simpl; [reflexivity | now rewrite IH]. Qed.

Lemma app_assoc (a b c : string) : ((a ++ b) ++ c = a ++ (b ++ c))%string.
Proof. induction a as [|x a IH]; simpl; [reflexivity | now rewrite IH]. Qed.

Lemma app_empty_r (a : string) : (a ++ "" = a)%string.
Proof. induction a as [|x a IH]; simpl; [reflexivity | now rewrite IH]. Qed.

(** Slicing off a prefix by its length leaves the rest. *)
Lemma slice_from_app (a b : string) :
  slice_from (String.length a) (a ++ b) = b.
Proof. induction a as [|c a IH]; simpl; [now destruct b | exact IH]. Qed.

Lemma slice_from_prefix_sep (a b : string) :
  slice_from (String.length a + 1) (a ++ "/" ++ b) = b.
Proof.
  replace (String.length a + 1) with (String.length (a ++ "/")).
  - rewrite <- app_assoc. apply slice_from_app.
  - rewrite length_app. reflexivity.
Qed.

Lemma endswith_sep_app (a b : string) :
  b <> EmptyString -> endswith_sep (a ++ b) = endswith_sep b.
Proof.
  intros Hb. induction a as [|c a IH]; simpl; [reflexivity|].
  rewrite IH. destruct (a ++ b)%string eqn:E; [|reflexivity].
  destruct a; simpl in E; [congruence | discriminate].
Qed.

Lemma no_sep_endswith (a : string) : has_sep a = false -> endswith_sep a = false.
Proof.
  induction a as [|c a IH]; simpl; [reflexivity|].
  intros H. apply orb_false_iff in H as [Hc Ha].
  destruct a; [exact Hc | now apply IH].
Qed.

Lemma no_sep_startswith (a : string) : has_sep a = false -> startswith_sep a = false.
Proof.
  destruct a as [|c a]; simpl; [reflexivity|].
  intros H. now apply orb_false_iff in H as [Hc _].
Qed.

Lemma split_sep_nonempty (s : string) : split_sep s <> [].
Proof.
  induction s as [|c s IH]; simpl; [discriminate|].
  destruct (is_sep c); [discriminate|].
  destruct (split_sep s); [congruence | discriminate].
Qed.

(** A name without separator is its own single component. *)
Lemma split_sep_name (a : string) : has_sep a = false -> split_sep a = [a].
Proof.
  induction a as [|c a IH]; simpl; [reflexivity|].
  intros H. apply orb_false_iff in H as [Hc Ha].
  rewrite Hc, (IH Ha). reflexivity.
Qed.

Lemma split_sep_app (a b : string) :
  has_sep a = false -> split_sep (a ++ "/" ++ b) = a :: split_sep b.
Proof.
  induction a as [|c a IH]; intros H; simpl in *; [reflexivity|].
  apply orb_false_iff in H as [Hc Ha].
  rewrite Hc, (IH Ha). reflexivity.
Qed.

Lemma join_sep_cons (c : string) (rest : list string) :
  rest <> [] -> join_sep (c :: rest) = (c ++ "/" ++ join_sep rest)%string.
Proof. destruct rest; [congruence | reflexivity]. Qed.

(** Splitting undoes joining, for plain names. *)
Lemma split_join (comps : list string) :
  comps <> [] -> Forall plain comps -> split_sep (join_sep comps) = comps.
Proof.
  induction comps as [|c rest IH]; [congruence|].
  intros _ H. inversion H as [|? ? [_ Hc] Hrest]; subst.
  destruct rest as [|d rest'].
  - simpl. now apply split_sep_name.
  - rewrite join_sep_cons by discriminate.
    rewrite split_sep_app by exact Hc.
    rewrite IH; [reflexivity | discriminate | exact Hrest].
Qed.

Lemma join_sep_startswith (comps : list string) :
  Forall plain comps -> startswith_sep (join_sep comps) = false.
Proof.
  destruct comps as [|c rest]; [reflexivity|].
  intros H. inversion H as [|? ? [Hne Hc] Hrest]; subst.
  destruct rest as [|d rest'].
  - simpl. now apply no_sep_startswith.
  - rewrite join_sep_cons by discriminate.
    destruct c as [|x c]; [congruence|].
    simpl in *. now apply orb_false_iff in Hc as [Hx _].
Qed.

Lemma join_sep_not_empty (comps : list string) :
  comps <> [] -> Forall plain comps -> join_sep comps <> EmptyString.
Proof.
  destruct comps as [|c rest]; [congruence|].
  intros _ H. inversion H as [|? ? [Hne Hc] Hrest]; subst.
  destruct rest as [|d rest']; [exact Hne|].
  rewrite join_sep_cons by discriminate.
  destruct c; [congruence | discriminate].
Qed.

Lemma join_sep_endswith (comps : list string) :
  comps <> [] -> Forall plain comps -> endswith_sep (join_sep comps) = false.
Proof.
  induction comps as [|c rest IH]; [congruence|].
  intros _ H. inversion H as [|? ? [Hne Hc] Hrest]; subst.
  destruct rest as [|d rest'].
  - simpl. now apply no_sep_endswith.
  - rewrite join_sep_cons by discriminate.
    rewrite <- app_assoc, endswith_sep_app.
    + apply IH; [discriminate | exact Hrest].
    + apply join_sep_not_empty; [discriminate | exact Hrest].
Qed.

End StrFacts.

Module PathFacts.

Import Str Spec StrFacts OsPath.

(** Under a directory path that does not end with a separator, the entry
    path is the directory path, a separator and the name. *)
Lemma join_plain (path name : string) :
  path <> EmptyString -> endswith_sep path = false ->
  join path name = (path ++ "/" ++ name)%string.
Proof.
  intros Hne Hend. unfold join. rewrite Hend.
  destruct path; [congruence | reflexivity].
Qed.

Lemma valid_name_plain (name : string) : Fs.valid_name name = true -> plain name.
Proof.
  unfold Fs.valid_name, plain. intros H.
  repeat (apply andb_true_iff in H as [H ?]).
  split.
  - intros ->. discriminate.
  - now apply negb_true_iff.
Qed.

Lemma valid_names_plain (comps : list string) :
  Forall (fun c => Fs.valid_name c = true) comps -> Forall plain comps.
Proof. apply Forall_impl. exact valid_name_plain. Qed.

Lemma norm_step_valid (rooted : bool) (acc : list string) (comp : string) :
  Fs.valid_name comp = true -> norm_step rooted acc comp = comp :: acc.
Proof.
  unfold Fs.valid_name, norm_step. intros H.
  repeat (apply andb_true_iff in H as [H ?]).
  apply negb_true_iff in H. rewrite H.
  match goal with E : negb (comp =? ".") = true |- _ =>
    apply negb_true_iff in E; rewrite E end.
  match goal with E : negb (comp =? "..") = true |- _ => rewrite E end.
  reflexivity.
Qed.

Lemma fold_norm_step_valid (rooted : bool) (comps acc : list string) :
  Forall (fun c => Fs.valid_name c = true) comps ->
  fold_left (norm_step rooted) comps acc = rev comps ++ acc.
Proof.
  revert acc. induction comps as [|c rest IH]; intros acc H; [reflexivity|].
  inversion H as [|? ? Hc Hrest]; subst. simpl.
  rewrite norm_step_valid by exact Hc. rewrite IH by exact Hrest.
  rewrite <- List.app_assoc. reflexivity.
Qed.

Lemma initial_slashes_relative (path : string) :
  startswith_sep path = false -> initial_slashes path = 0.
Proof.
  destruct path as [|a [|b [|c rest]]]; simpl; intros H;
    try reflexivity; now rewrite H.
Qed.

Lemma lstrip_sep_relative (path : string) :
  startswith_sep path = false -> lstrip_sep path = path.
Proof. destruct path as [|a rest]; simpl; intros H; [|rewrite H]; reflexivity. Qed.

Lemma normpath_not_empty (path : string) :
  path <> EmptyString ->
  normpath path =
  match (slashes (initial_slashes path)
         ++ join_sep (rev (fold_left
                             (norm_step (negb (Nat.eqb (initial_slashes path) 0)))
                             (split_sep path) [])))%string with
  | EmptyString => "."
  | p => p
  end.
Proof. destruct path; [congruence | reflexivity]. Qed.

(** A relative path made of valid names is in normal form. *)
Lemma normpath_valid (comps : list string) :
  comps <> [] -> Forall (fun c => Fs.valid_name c = true) comps ->
  normpath (join_sep comps) = join_sep comps.
Proof.
  intros Hne Hvalid.
  pose proof (valid_names_plain _ Hvalid) as Hplain.
  pose proof (join_sep_not_empty _ Hne Hplain) as Hpath.
  rewrite (normpath_not_empty _ Hpath).
  rewrite (initial_slashes_relative _ (join_sep_startswith _ Hplain)).
  rewrite (split_join _ Hne Hplain).
  rewrite fold_norm_step_valid by exact Hvalid.
  rewrite List.app_nil_r, rev_involutive. simpl.
  destruct (join_sep comps); [congruence | reflexivity].
Qed.

(** So it is its own archive name. *)
Lemma arcname_of_valid (comps : list string) :
  comps <> [] -> Forall (fun c => Fs.valid_name c = true) comps ->
  Zip.arcname_of (join_sep comps) = inr (join_sep comps).
Proof.
  intros Hne Hvalid.
  pose proof (valid_names_plain _ Hvalid) as Hplain.
  unfold Zip.arcname_of.
  rewrite (normpath_valid _ Hne Hvalid).
  rewrite lstrip_sep_relative by now apply join_sep_startswith.
  pose proof (join_sep_not_empty _ Hne Hplain).
  destruct (join_sep comps); [congruence | reflexivity].
Qed.

End PathFacts.

(** ** The filesystem *)

Module FsFacts.

Import Str Spec StrFacts PathFacts Fs.

(** Induction over a tree, with the hypothesis for every child. *)
Lemma node_nested_ind (P : node -> Prop) :
  (forall name data, P (File name data)) ->
  (forall name sub, Forall P sub -> P (Dir name sub)) ->
  forall n, P n.
Proof.
  intros HF HD. fix IH 1. intros [name data | name sub].
  - apply HF.
  - apply HD. induction sub as [|n sub IHsub]; constructor.
    + apply IH.
    + exact IHsub.
Qed.

Lemma lookup_cons (listing : list node) (c : string) (rest : list string) :
  lookup listing (c :: rest) =
  match find_child c listing with
  | Some n => lookup_node n rest
  | None => None
  end.
Proof. simpl. destruct (find_child c listing) as [[? ?|? ?]|]; reflexivity. Qed.

Lemma find_child_name (name : string) (listing : list node) (n : node) :
  find_child name listing = Some n -> node_name n = name /\ In n listing.
Proof.
  induction listing as [|m rest IH]; simpl; [discriminate|].
  destruct (String.eqb_spec (node_name m) name) as [E|E].
  - intros [= <-]. auto.
  - intros H. destruct (IH H). auto.
Qed.

(** In a listing with distinct names, a node is the child its name finds. *)
Lemma find_child_distinct (listing : list node) (n : node) :
  distinct (map node_name listing) = true -> In n listing ->
  find_child (node_name n) listing = Some n.
Proof.
  induction listing as [|m rest IH]; simpl; [contradiction|].
  intros H Hin. apply andb_true_iff in H as [Hm Hrest].
  destruct Hin as [-> | Hin].
  - now rewrite String.eqb_refl.
  - destruct (String.eqb_spec (node_name m) (node_name n)) as [E|E].
    + exfalso. apply negb_true_iff in Hm.
      assert (existsb (String.eqb (node_name m)) (map node_name rest) = true)
        as Hex; [|congruence].
      apply existsb_exists. exists (node_name n). split.
      * now apply in_map.
      * now apply String.eqb_eq.
    + now apply IH.
Qed.

Lemma wf_listing_In (listing : list node) (n : node) :
  wf_listing listing = true -> In n listing -> wf_node n = true.
Proof.
  unfold wf_listing. intros H Hin. apply andb_true_iff in H as [_ H].
  rewrite forallb_forall in H. now apply H.
Qed.

Lemma wf_dir_listing (name : string) (sub : list node) :
  wf_node (Dir name sub) = true ->
  valid_name name = true /\ wf_listing sub = true.
Proof.
  simpl. intros H. apply andb_true_iff in H as [H Hsub].
  apply andb_true_iff in H as [Hname Hdist].
  unfold wf_listing. now rewrite Hdist, Hsub.
Qed.

(** Resolution composes along a path. *)
Lemma lookup_app (listing : list node) (a b : list string) :
  lookup listing (a ++ b) =
  match lookup listing a with
  | Some (FoundDir sub) => lookup sub b
  | Some (FoundFile data) =>
      match b with
      | [] => Some (FoundFile data)
      | _ :: _ => None
      end
  | None => None
  end.
Proof.
  revert listing. induction a as [|c a IH]; intros listing; [reflexivity|].
  simpl. destruct (find_child c listing) as [[name data | name sub]|].
  - destruct a; simpl; [destruct b|]; reflexivity.
  - apply IH.
  - reflexivity.
Qed.

(** The working directory of a well-formed filesystem is well formed, and
    reached through valid names. *)
Lemma wf_lookup (comps : list string) :
  forall listing sub,
    wf_listing listing = true -> lookup listing comps = Some (FoundDir sub) ->
    wf_listing sub = true /\ Forall (fun c => valid_name c = true) comps.
Proof.
  induction comps as [|c rest IH]; intros listing sub Hwf H.
  - injection H as <-. auto.
  - rewrite lookup_cons in H.
    destruct (find_child c listing) as [n|] eqn:E; [|discriminate].
    apply find_child_name in E as [Hname Hin].
    pose proof (wf_listing_In _ _ Hwf Hin) as Hn.
    destruct n as [name data | name children]; simpl in H.
    + destruct rest; discriminate.
    + apply wf_dir_listing in Hn as [Hvalid Hsub]. simpl in Hname. subst c.
      destruct (IH _ _ Hsub H) as [? ?]. auto.
Qed.

(** Every regular file the specification lists is found at its names, and
    its names are valid. *)
Lemma files_of_node_spec (n : node) :
  wf_node n = true ->
  forall comps data, In (comps, data) (files_of_node n) ->
    exists rest, comps = node_name n :: rest
      /\ Forall (fun c => valid_name c = true) comps
      /\ lookup_node n rest = Some (FoundFile data).
Proof.
  induction n as [name d | name sub IH] using node_nested_ind;
    intros Hwf comps data Hin.
  - simpl in Hin. destruct Hin as [[= <- <-]|[]].
    exists []. simpl in *. auto.
  - apply wf_dir_listing in Hwf as [Hname Hsub].
    simpl in Hin. apply in_map_iff in Hin as [[comps' data'] [[= <- <-] Hin]].
    apply in_flat_map in Hin as [m [Hm Hin]].
    rewrite Forall_forall in IH.
    destruct (IH m Hm (wf_listing_In _ _ Hsub Hm) _ _ Hin)
      as [rest [-> [Hvalid Hlook]]].
    exists (node_name m :: rest). simpl. split; [reflexivity|]. split.
    + constructor; assumption.
    + pose proof (lookup_cons sub (node_name m) rest) as E. simpl in E.
      rewrite E, find_child_distinct; [exact Hlook | | exact Hm].
      unfold wf_listing in Hsub. now apply andb_true_iff in Hsub as [? _].
Qed.

Lemma files_under_spec (listing : list node) :
  wf_listing listing = true ->
  forall comps data, In (comps, data) (files_under listing) ->
    comps <> [] /\ Forall (fun c => valid_name c = true) comps
    /\ lookup listing comps = Some (FoundFile data).
Proof.
  intros Hwf comps data Hin.
  apply in_flat_map in Hin as [n [Hn Hin]].
  destruct (files_of_node_spec n (wf_listing_In _ _ Hwf Hn) _ _ Hin)
    as [rest [-> [Hvalid Hlook]]].
  split; [discriminate|]. split; [exact Hvalid|].
  rewrite lookup_cons, find_child_distinct; [exact Hlook | | exact Hn].
  unfold wf_listing in Hwf. now apply andb_true_iff in Hwf as [? _].
Qed.

End FsFacts.

(** ** Path resolution and the traversal *)

Module ScanFacts.

Import Str Spec StrFacts PathFacts Fs FsFacts.

Lemma valid_name_step (c : string) :
  valid_name c = true ->
  ((c =? "") || (c =? "."))%bool = false /\ (c =? "..") = false.
Proof.
  unfold valid_name. intros H.
  repeat (apply andb_true_iff in H as [H ?]).
  repeat match goal with E : negb _ = true |- _ => apply negb_true_iff in E end.
  split; [apply orb_false_iff; split|]; assumption.
Qed.

(** Walking valid names that lead somewhere goes down name by name. *)
Lemma walk_valid (r : list node) (comps : list string) :
  forall cur x,
    Forall (fun c => valid_name c = true) comps ->
    lookup r (cur ++ comps) = Some x ->
    walk r cur comps = Some (cur ++ comps).
Proof.
  induction comps as [|c rest IH]; intros cur x Hvalid Hlook.
  - now rewrite List.app_nil_r.
  - inversion Hvalid as [|? ? Hc Hrest]; subst.
    destruct (valid_name_step c Hc) as [E1 E2].
    assert (lookup r ((cur ++ [c]) ++ rest) = Some x) as Hnext
      by (rewrite <- List.app_assoc; exact Hlook).
    rewrite lookup_app in Hlook. simpl walk.
    destruct (lookup r cur) as [[data | listing]|]; try discriminate.
    rewrite E1, E2. rewrite lookup_cons in Hlook.
    destruct (find_child c listing) as [n|]; [|discriminate].
    rewrite (IH _ _ Hrest Hnext), <- List.app_assoc. reflexivity.
Qed.

(** [os.stat] of a relative path of valid names resolves below the working
    directory. *)
Lemma stat_relative (fs : t) (comps : list string) (x : found) :
  comps <> [] ->
  Forall (fun c => valid_name c = true) comps ->
  lookup (root fs) (cwd fs ++ comps) = Some x ->
  stat fs (join_sep comps) = Some x.
Proof.
  intros Hne Hvalid Hlook.
  pose proof (valid_names_plain _ Hvalid) as Hplain.
  pose proof (join_sep_not_empty _ Hne Hplain) as Hpath.
  unfold stat.
  rewrite (join_sep_startswith _ Hplain), (split_join _ Hne Hplain).
  rewrite (walk_valid _ _ _ _ Hvalid Hlook), Hlook.
  destruct (join_sep comps); [congruence | reflexivity].
Qed.

(** A regular file of the working directory is what [os.stat] finds at its
    relative path. *)
Lemma stat_file (fs : t) (listing : list node) (comps : list string)
    (data : string) :
  lookup (root fs) (cwd fs) = Some (FoundDir listing) ->
  wf_listing listing = true ->
  In (comps, data) (files_under listing) ->
  stat fs (join_sep comps) = Some (FoundFile data).
Proof.
  intros Hcwd Hwf Hin.
  destruct (files_under_spec _ Hwf _ _ Hin) as [Hne [Hvalid Hlook]].
  apply stat_relative; [exact Hne | exact Hvalid|].
  now rewrite lookup_app, Hcwd.
Qed.

(** [zipf.write] of such a path appends the file under that very name. *)
Lemma write_file (fs : t) (listing : list node) (comps : list string)
    (data : string) (zipf : Zip.zipfile) :
  lookup (root fs) (cwd fs) = Some (FoundDir listing) ->
  wf_listing listing = true ->
  In (comps, data) (files_under listing) ->
  Zip.write fs zipf (join_sep comps)
  = inr (zipf ++ [Zip.mkEntry (join_sep comps) false data]).
Proof.
  intros Hcwd Hwf Hin.
  destruct (files_under_spec _ Hwf _ _ Hin) as [Hne [Hvalid _]].
  unfold Zip.write.
  rewrite (stat_file _ _ _ _ Hcwd Hwf Hin), (arcname_of_valid _ Hne Hvalid).
  reflexivity.
Qed.

(** The entries [_scantree] yields under a directory path that does not end
    with a separator: one for each regular file, at the directory path, a
    separator and the file's relative path, in listing order. *)
Lemma scan_entry_files (n : node) :
  forall path,
    wf_node n = true -> path <> EmptyString -> endswith_sep path = false ->
    App.scan_entry path n
    = map (fun f => mkEntry (path ++ "/" ++ join_sep (fst f))%string)
          (files_of_node n).
Proof.
  induction n as [name d | name sub IH] using node_nested_ind;
    intros path Hwf Hne Hend.
  - simpl. now rewrite join_plain.
  - apply wf_dir_listing in Hwf as [Hname Hsub].
    destruct (valid_name_plain _ Hname) as [Hname1 Hname2].
    simpl. rewrite map_map. simpl.
    rewrite (join_plain _ _ Hne Hend).
    assert (forall m, In m sub ->
              App.scan_entry (path ++ "/" ++ name) m
              = map (fun f => mkEntry
                       (path ++ "/" ++ join_sep (name :: fst f))%string)
                    (files_of_node m)) as Hsame.
    { intros m Hm. rewrite Forall_forall in IH.
      rewrite (IH m Hm).
      - apply map_ext_in. intros [comps data] Hin. simpl fst.
        destruct (files_of_node_spec m (wf_listing_In _ _ Hsub Hm) _ _ Hin)
          as [rest [-> _]].
        rewrite (join_sep_cons name) by discriminate.
        now rewrite !StrFacts.app_assoc.
      - exact (wf_listing_In _ _ Hsub Hm).
      - destruct path; [congruence | discriminate].
      - rewrite <- StrFacts.app_assoc, endswith_sep_app by exact Hname1.
        now apply no_sep_endswith. }
    clear IH. induction sub as [|m sub' IHsub]; [reflexivity|].
    simpl. rewrite map_app, Hsame by (now left).
    f_equal. apply IHsub.
    + unfold wf_listing in *.
      apply andb_true_iff in Hsub as [Hd Hf]. simpl in Hd, Hf.
      apply andb_true_iff in Hd as [_ Hd]. apply andb_true_iff in Hf as [_ Hf].
      now rewrite Hd, Hf.
    + intros m' Hm'. apply Hsame. now right.
Qed.

Lemma scantree_files (path : string) (listing : list node) :
  wf_listing listing = true -> path <> EmptyString ->
  endswith_sep path = false ->
  App._scantree path listing
  = map (fun f => mkEntry (path ++ "/" ++ join_sep (fst f))%string)
        (files_under listing).
Proof.
  intros Hwf Hne Hend. unfold App._scantree, files_under.
  induction listing as [|n rest IH]; [reflexivity|].
  simpl. rewrite map_app, scan_entry_files;
    [| exact (wf_listing_In _ _ Hwf (or_introl eq_refl)) | exact Hne | exact Hend].
  f_equal. apply IH.
  unfold wf_listing in *.
  apply andb_true_iff in Hwf as [Hd Hf]. simpl in Hd, Hf.
  apply andb_true_iff in Hd as [_ Hd]. apply andb_true_iff in Hf as [_ Hf].
  now rewrite Hd, Hf.
Qed.

(** [os.getcwd()] below the root: not empty, no trailing separator. *)
Lemma getcwd_below_root (fs : t) :
  wf_listing (root fs) = true -> cwd fs <> [] ->
  forall listing, lookup (root fs) (cwd fs) = Some (FoundDir listing) ->
    getcwd fs = Some ("/" ++ join_sep (cwd fs))%string
    /\ endswith_sep ("/" ++ join_sep (cwd fs)) = false
    /\ wf_listing listing = true.
Proof.
  intros Hwf Hne listing Hcwd.
  destruct (wf_lookup _ _ _ Hwf Hcwd) as [Hsub Hvalid].
  pose proof (valid_names_plain _ Hvalid) as Hplain.
  unfold getcwd. rewrite Hcwd. repeat split; [|exact Hsub].
  rewrite endswith_sep_app by now apply join_sep_not_empty.
  now apply join_sep_endswith.
Qed.

End ScanFacts.

(** ** The monad: what only logs, and what the result depends on *)

Module RunFacts.

Import Spec Run.

Section WithServices.

Context {ext : External}.

Local Open Scope run_scope.

Lemma actions_app (a b : list event) : actions (a ++ b) = actions a ++ actions b.
Proof. apply filter_app. Qed.

Lemma logged_refl (s : state) : logged s s.
Proof.
  repeat split. exists []. split; [now rewrite List.app_nil_r | reflexivity].
Qed.

Lemma logged_trans (s1 s2 s3 : state) :
  logged s1 s2 -> logged s2 s3 -> logged s1 s3.
Proof.
  intros (F1 & C1 & L1 & l1 & T1 & A1) (F2 & C2 & L2 & l2 & T2 & A2).
  repeat split; try congruence.
  exists (l1 ++ l2). split.
  - now rewrite T2, T1, List.app_assoc.
  - now rewrite actions_app, A1, A2.
Qed.

Lemma logged_run_to (s s' : state) : logged s s' -> run_to s s' (svc s) [].
Proof. intros (F & C & _ & l & T & A). repeat split; eauto. Qed.

Lemma run_to_trans (s1 s2 s3 : state) (c2 c3 : cloud) (a b : list event) :
  run_to s1 s2 c2 a -> run_to s2 s3 c3 b -> run_to s1 s3 c3 (a ++ b).
Proof.
  intros (F1 & C1 & l1 & T1 & A1) (F2 & C2 & l2 & T2 & A2).
  repeat split; try congruence.
  exists (l1 ++ l2). split.
  - now rewrite T2, T1, List.app_assoc.
  - now rewrite actions_app, A1, A2.
Qed.

Lemma run_to_logged (s1 s2 s3 : state) (c : cloud) (a : list event) :
  run_to s1 s2 c a -> logged s2 s3 -> run_to s1 s3 c a.
Proof.
  intros H L. pose proof (logged_run_to _ _ L) as H'.
  destruct H as (F1 & C1 & R1). rewrite C1 in H'.
  rewrite <- (List.app_nil_r a).
  exact (run_to_trans _ _ _ _ _ _ _ (conj F1 (conj C1 R1)) H').
Qed.

(** A handled or dropped log record leaves everything else as it was. *)
Lemma logging_logged (lvl : level) (fmt : string) (args : list logarg)
    (s : state) :
  fst (logging lvl fmt args s) = inr tt /\ logged s (snd (logging lvl fmt args s)).
Proof.
  unfold logging.
  destruct (Nat.leb (severity (log_level s)) (severity lvl)).
  - simpl. split; [reflexivity|]. repeat split. eexists. split; reflexivity.
  - split; [reflexivity | apply logged_refl].
Qed.

Lemma quiet_ret {A : Type} (a : A) : quiet (ret a).
Proof. split; intros; [apply logged_refl | reflexivity]. Qed.

Lemma quiet_raise {A : Type} (e : exn) : quiet (@raise ext A e).
Proof. split; intros; [apply logged_refl | reflexivity]. Qed.

Lemma quiet_logging (lvl : level) (fmt : string) (args : list logarg) :
  quiet (logging lvl fmt args).
Proof.
  split.
  - intros s. apply logging_logged.
  - intros s1 s2 _.
    rewrite (proj1 (logging_logged lvl fmt args s1)).
    now rewrite (proj1 (logging_logged lvl fmt args s2)).
Qed.

Lemma quiet_get_fs : quiet get_fs.
Proof. split; intros; [apply logged_refl | simpl; congruence]. Qed.

Lemma quiet_bind {A B : Type} (m : M A) (k : A -> M B) :
  quiet m -> (forall a, quiet (k a)) -> quiet (bind m k).
Proof.
  intros [Hm1 Hm2] Hk. split.
  - intros s. unfold bind. specialize (Hm1 s).
    destruct (m s) as [[e | a] s1]; simpl in *; [exact Hm1|].
    eapply logged_trans; [exact Hm1 | apply Hk].
  - intros s1 s2 Hfs. unfold bind.
    pose proof (Hm1 s1) as L1. pose proof (Hm1 s2) as L2.
    specialize (Hm2 s1 s2 Hfs).
    destruct (m s1) as [[e1 | a1] s1'], (m s2) as [[e2 | a2] s2'];
      simpl in *; try congruence.
    injection Hm2 as <-. apply (Hk a1).
    destruct L1 as [F1 _], L2 as [F2 _]. congruence.
Qed.

(** What a quiet computation does to a state: its result is the one it has
    on any state with the same filesystem. *)
Lemma quiet_run {A : Type} (m : M A) (s0 s : state) :
  quiet m -> fs s = fs s0 ->
  exists s', m s = (fst (m s0), s') /\ logged s s'.
Proof.
  intros [H1 H2] Hfs. exists (snd (m s)). split.
  - rewrite <- (H2 s s0 Hfs). now destruct (m s).
  - apply H1.
Qed.

End WithServices.

End RunFacts.

(** ** The archive builder *)

Module BuildFacts.

Import Str Spec StrFacts PathFacts Fs FsFacts ScanFacts Run RunFacts App.

Section WithServices.

Context {ext : External}.

Local Open Scope run_scope.

Lemma bind_logging {A : Type} (lvl : level) (fmt : string)
    (args : list logarg) (k : unit -> M A) (s : state) :
  bind (logging lvl fmt args) k s = k tt (snd (logging lvl fmt args s)).
Proof.
  unfold bind. pose proof (proj1 (logging_logged lvl fmt args s)) as H.
  destruct (logging lvl fmt args s) as [[e | []] s']; simpl in *;
    [discriminate | reflexivity].
Qed.

Lemma logging_fs (lvl : level) (fmt : string) (args : list logarg) (s : state) :
  fs (snd (logging lvl fmt args s)) = fs s.
Proof. apply logging_logged. Qed.

(** [os.stat] of one valid name of the working directory. *)
Lemma stat_name (fs : Fs.t) (name : string) :
  valid_name name = true ->
  stat fs name
  = match find_child name (cwd_listing fs) with
    | Some n => lookup_node n []
    | None => None
    end.
Proof.
  intros Hvalid.
  destruct (valid_name_plain _ Hvalid) as [Hne Hsep].
  destruct (valid_name_step _ Hvalid) as [E1 E2].
  unfold stat, cwd_listing.
  rewrite (no_sep_startswith _ Hsep), (split_sep_name _ Hsep).
  destruct name as [|a name']; [congruence|].
  remember (String a name') as name. simpl walk.
  destruct (lookup (root fs) (cwd fs)) as [[data | listing]|] eqn:Hcwd;
    try reflexivity.
  rewrite E1, E2.
  destruct (find_child name listing) as [n|] eqn:E; [|reflexivity].
  rewrite lookup_app, Hcwd, lookup_cons, E. reflexivity.
Qed.

Lemma isfile_name (fs : Fs.t) (name : string) :
  valid_name name = true ->
  isfile fs name
  = match find_child name (cwd_listing fs) with
    | Some (File _ _) => true
    | _ => false
    end.
Proof.
  intros Hvalid. unfold isfile. rewrite (stat_name _ _ Hvalid).
  destruct (find_child name (cwd_listing fs)) as [[? ?|? ?]|]; reflexivity.
Qed.

Lemma read_name (fs : Fs.t) (name : string) :
  valid_name name = true ->
  read fs name
  = match find_child name (cwd_listing fs) with
    | Some (File _ data) => Some data
    | _ => None
    end.
Proof.
  intros Hvalid. unfold read. rewrite (stat_name _ _ Hvalid).
  destruct (find_child name (cwd_listing fs)) as [[? ?|? ?]|]; reflexivity.
Qed.

Lemma quiet_load_ignore_matches : quiet load_ignore_matches.
Proof.
  unfold load_ignore_matches. apply quiet_bind; [apply quiet_get_fs|].
  intros fs.
  destruct (isfile fs ".ebignore"); [|destruct (isfile fs ".gitignore")];
    (apply quiet_bind; [apply quiet_logging | intros; apply quiet_ret]).
Qed.

Lemma quiet_getcwd : quiet getcwd.
Proof.
  unfold getcwd. apply quiet_bind; [apply quiet_get_fs|].
  intros fs. destruct (Fs.getcwd fs); [apply quiet_ret | apply quiet_raise].
Qed.

Lemma quiet_zip_write (zipf : Zip.zipfile) (filename : string) :
  quiet (zip_write zipf filename).
Proof.
  unfold zip_write. apply quiet_bind; [apply quiet_get_fs|].
  intros fs. destruct (Zip.write fs zipf filename);
    [apply quiet_raise | apply quiet_ret].
Qed.

Lemma quiet_add_entries (ignore_matches : string -> bool) (base_dir : string)
    (entries : list DirEntry) :
  forall zipf, quiet (add_entries ignore_matches base_dir entries zipf).
Proof.
  induction entries as [|entry rest IH]; intros zipf; simpl.
  - apply quiet_ret.
  - destruct (ignore_matches (path entry)).
    + apply quiet_bind; [apply quiet_logging | intros; apply IH].
    + apply quiet_bind; [apply quiet_logging | intros].
      apply quiet_bind; [apply quiet_zip_write | intros; apply IH].
Qed.

(** The builder reads the filesystem and logs; it does nothing else. *)
Lemma quiet_add_files (zipf : Zip.zipfile) : quiet (_add_files_to_zipfile zipf).
Proof.
  unfold _add_files_to_zipfile.
  apply quiet_bind; [apply quiet_load_ignore_matches | intros m].
  apply quiet_bind; [apply quiet_getcwd | intros base].
  apply quiet_bind; [apply quiet_get_fs | intros fs].
  apply quiet_bind; [apply quiet_add_entries | intros zipf'].
  apply quiet_bind; [apply quiet_logging | intros; apply quiet_ret].
Qed.

(** The loop over the entries of regular files that [zipf.write] can store:
    the files whose absolute path matches are left out, the others are
    appended under their relative path. *)
Lemma add_entries_files (ignore_matches : string -> bool) (base_dir : string)
    (files : list (list string * string)) :
  forall zipf s,
    (forall f z, In f files ->
       Zip.write (fs s) z (join_sep (fst f))
       = inr (z ++ [Zip.mkEntry (join_sep (fst f)) false (snd f)])) ->
    fst (add_entries ignore_matches base_dir
           (map (fun f => mkEntry (base_dir ++ "/" ++ join_sep (fst f))%string)
                files) zipf s)
    = inr (zipf
           ++ map (fun f => Zip.mkEntry (join_sep (fst f)) false (snd f))
                (filter (fun f => negb (ignore_matches
                                          (base_dir ++ "/" ++ join_sep (fst f))%string))
                        files)).
Proof.
  induction files as [|f rest IH]; intros zipf s Hwrite.
  - simpl. now rewrite List.app_nil_r.
  - cbn [map add_entries path filter].
    rewrite slice_from_prefix_sep.
    destruct (ignore_matches (base_dir ++ "/" ++ join_sep (fst f))%string);
      cbn [negb]; rewrite bind_logging.
    + apply IH. intros f' z Hin. rewrite logging_fs.
      apply Hwrite. now right.
    + unfold bind at 1. unfold zip_write at 1. unfold bind at 1, get_fs.
      rewrite logging_fs, (Hwrite f zipf (or_introl eq_refl)).
      cbn [ret]. rewrite IH.
      * cbn [map]. now rewrite <- List.app_assoc.
      * intros f' z Hin. rewrite logging_fs. apply Hwrite. now right.
Qed.

(** The ignore predicate the builder loads, by what the working directory
    holds. *)
Lemma load_ignore_matches_result (s : state) :
  exists m, fst (load_ignore_matches s) = inr m /\
    match find_child ".ebignore" (cwd_listing (fs s)) with
    | Some (File _ rules) =>
        m = parse_gitignore ("/" ++ join_sep (cwd (fs s)))%string rules
    | _ =>
        match find_child ".gitignore" (cwd_listing (fs s)) with
        | Some (File _ rules) =>
            m = parse_gitignore ("/" ++ join_sep (cwd (fs s)))%string rules
        | _ => m = (fun _ => false)
        end
    end.
Proof.
  unfold load_ignore_matches, bind at 1, get_fs.
  rewrite !isfile_name by reflexivity.
  unfold parse_ignore_file. rewrite !read_name by reflexivity.
  destruct (find_child ".ebignore" (cwd_listing (fs s))) as [[? rules|? ?]|];
    [ rewrite bind_logging; eexists; split; reflexivity | | ];
    (destruct (find_child ".gitignore" (cwd_listing (fs s)))
       as [[? rules|? ?]|];
     rewrite bind_logging; eexists; split; reflexivity).
Qed.

(** Below the root, the builder makes the archive of the regular files
    whose absolute path the predicate does not match, each under its
    relative path and with its contents, in traversal order. *)
Lemma add_files_below_root (s : state) (listing : list node)
    (m : string -> bool) :
  wf_listing (root (fs s)) = true ->
  cwd (fs s) <> [] ->
  lookup (root (fs s)) (cwd (fs s)) = Some (FoundDir listing) ->
  fst (load_ignore_matches s) = inr m ->
  fst (_add_files_to_zipfile [] s)
  = inr (map (fun f => Zip.mkEntry (join_sep (fst f)) false (snd f))
           (filter (fun f => negb (m ("/" ++ join_sep (cwd (fs s)) ++ "/"
                                       ++ join_sep (fst f))%string))
                   (files_under listing))).
Proof.
  intros Hwf Hne Hcwd Hload.
  destruct (getcwd_below_root _ Hwf Hne _ Hcwd) as (Hget & Hend & Hsub).
  pose proof (proj1 quiet_load_ignore_matches s) as (Hfs & _).
  unfold _add_files_to_zipfile, bind at 1.
  destruct (load_ignore_matches s) as [[e | m'] s1]; simpl in Hload, Hfs;
    [discriminate | injection Hload as ->].
  unfold bind at 1, getcwd, bind at 1, get_fs. rewrite Hfs, Hget. cbn [ret].
  unfold bind at 1. rewrite Hfs. unfold cwd_listing. rewrite Hcwd.
  rewrite scantree_files; [| exact Hsub | discriminate | exact Hend].
  assert (forall f z, In f (files_under listing) ->
            Zip.write (fs s1) z (join_sep (fst f))
            = inr (z ++ [Zip.mkEntry (join_sep (fst f)) false (snd f)]))
    as Hwrite.
  { intros f z Hin. rewrite Hfs. destruct f as [comps data].
    now apply (write_file _ listing). }
  pose proof (add_entries_files m ("/" ++ join_sep (cwd (fs s)))
                (files_under listing) [] s1 Hwrite) as Hloop.
  unfold bind at 1.
  destruct (add_entries _ _ _ _ s1) as [[e | zipf] s2]; simpl in Hloop;
    [discriminate | injection Hloop as ->].
  rewrite bind_logging. reflexivity.
Qed.

(** What the archive holds when the builder stops depends on the
    filesystem only. *)
Lemma left_in_fs (zipf : Zip.zipfile) (s1 s2 : state) :
  fs s1 = fs s2 -> left_in zipf s1 = left_in zipf s2.
Proof.
  intros H. unfold left_in.
  now rewrite (proj2 quiet_load_ignore_matches s1 s2 H), H.
Qed.

Lemma add_entries_written (ignore_matches : string -> bool)
    (base_dir : string) (entries : list DirEntry) :
  forall zipf s zipf',
    fst (add_entries ignore_matches base_dir entries zipf s) = inr zipf' ->
    written ignore_matches base_dir entries zipf (fs s) = zipf'.
Proof.
  induction entries as [|entry rest IH]; intros zipf s zipf'; simpl.
  - now intros [= ->].
  - destruct (ignore_matches (path entry)); rewrite bind_logging.
    + intros H. apply IH in H. now rewrite logging_fs in H.
    + unfold bind at 1, zip_write at 1, bind at 1, get_fs.
      rewrite logging_fs.
      destruct (Zip.write (fs s) zipf _) as [e | z]; cbn [raise ret];
        [discriminate|].
      intros H. apply IH in H. now rewrite logging_fs in H.
Qed.

(** When the builder returns, the archive holds what it returns. *)
Lemma left_in_returned (zipf zipf' : Zip.zipfile) (s : state) :
  fst (_add_files_to_zipfile zipf s) = inr zipf' -> left_in zipf s = zipf'.
Proof.
  pose proof (proj1 quiet_load_ignore_matches s) as (Hfs & _).
  unfold left_in, _add_files_to_zipfile, bind at 1.
  destruct (load_ignore_matches s) as [[e | m] s1]; cbn [fst snd] in *;
    [discriminate|].
  unfold bind at 1, getcwd, bind at 1, get_fs. rewrite Hfs.
  destruct (Fs.getcwd (fs s)) as [base_dir|]; cbn [ret raise];
    [|discriminate].
  unfold bind at 1. rewrite Hfs. unfold bind at 1.
  destruct (add_entries _ _ _ _ s1) as [[e | z] s2] eqn:E; [discriminate|].
  rewrite bind_logging. cbn [ret fst]. intros [= <-].
  pose proof (add_entries_written m base_dir
                (_scantree base_dir (cwd_listing (fs s))) zipf s1 z) as H.
  rewrite E, Hfs in H. now apply H.
Qed.

End WithServices.

End BuildFacts.

(** ** The service calls and the registration *)

Module CallFacts.

Import Spec Run RunFacts BuildFacts App.

Section WithServices.

Context {ext : External}.

Local Open Scope run_scope.

Lemma run_to_emit (s : state) (e : event) :
  run_to s (snd (emit e s)) (svc s) (actions [e]).
Proof. repeat split. eexists. split; reflexivity. Qed.

Lemma run_to_refl (s : state) : run_to s s (svc s) [].
Proof. apply logged_run_to, logged_refl. Qed.

(** The progress callbacks of an upload only log. *)
Lemma each_progress_logged (counts : list nat) :
  forall s,
    fst (Boto.each_progress _log_upload_progress counts s) = inr tt
    /\ logged s (snd (Boto.each_progress _log_upload_progress counts s)).
Proof.
  induction counts as [|n rest IH]; intros s.
  - split; [reflexivity | apply logged_refl].
  - simpl.
    change (_log_upload_progress n)
      with (logging INFO "S3 upload has uploaded %s bytes..." [ArgNat n]).
    rewrite bind_logging.
    destruct (IH (snd (logging INFO "S3 upload has uploaded %s bytes..."
                               [ArgNat n] s))) as [Hr Hl].
    split; [exact Hr|].
    eapply logged_trans; [apply logging_logged | exact Hl].
Qed.

(** [eb.describe_application_versions]: one request, read only. *)
Lemma describe_run (application : string) (labels : list string) (s : state) :
  exists s',
    Boto.describe application labels s
    = (match describe_application_versions (svc s) application labels with
       | inl e => inl (of_boto e)
       | inr versions => inr versions
       end, s')
    /\ run_to s s' (svc s)
         [Describe application labels
            (describe_application_versions (svc s) application labels)].
Proof.
  unfold Boto.describe, bind, Boto.get_svc, emit. cbn.
  destruct (describe_application_versions (svc s) application labels);
    eexists; (split; [reflexivity|]);
    repeat split; eexists; split; reflexivity.
Qed.

(** [upload_fileobj]: one request; the progress reports are log records. *)
Lemma upload_run (bucket key : string) (f : fileobj) (s : state) :
  exists s',
    Boto.upload bucket key f _log_upload_progress s
    = (match snd (fst (upload_fileobj (svc s) bucket key (read_rest f))) with
       | Some e => inl (of_boto e)
       | None => inr tt
       end, s')
    /\ run_to s s' (snd (upload_fileobj (svc s) bucket key (read_rest f)))
         [Upload bucket key (read_rest f)
            (snd (fst (upload_fileobj (svc s) bucket key (read_rest f))))].
Proof.
  unfold Boto.upload, bind at 1, Boto.get_svc.
  destruct (upload_fileobj (svc s) bucket key (read_rest f))
    as [[counts failure] c'].
  unfold bind at 1, Boto.set_svc. unfold bind at 1.
  set (s1 := mkState (fs s) c' (log_level s) (trace s)).
  destruct (each_progress_logged counts s1) as [Hr Hl].
  destruct (Boto.each_progress _log_upload_progress counts s1) as [[e | []] s2];
    simpl in Hr, Hl; [discriminate|].
  assert (run_to s s2 c' []) as H12.
  { destruct Hl as (F & C & _ & logs & T & A). repeat split; eauto. }
  unfold bind at 1, emit. cbn [fst snd].
  destruct failure as [e|]; eexists; (split; [reflexivity|]);
    (eapply (run_to_trans _ _ _ _ _ [] _ H12);
     repeat split; [apply H12 | eexists; split; reflexivity]).
Qed.

(** [create_application_version]: one request. *)
Lemma create_run (application label description bucket key : string)
    (s : state) :
  exists s',
    Boto.create application label description bucket key s
    = (match fst (create_application_version
                    (svc s) application label description bucket key) with
       | Some e => inl (of_boto e)
       | None => inr tt
       end, s')
    /\ run_to s s'
         (snd (create_application_version
                 (svc s) application label description bucket key))
         [Create application label description bucket key
            (fst (create_application_version
                    (svc s) application label description bucket key))].
Proof.
  unfold Boto.create, bind at 1, Boto.get_svc.
  destruct (create_application_version
              (svc s) application label description bucket key)
    as [failure c'].
  unfold bind, Boto.set_svc, emit. cbn.
  destruct failure as [e|]; eexists; (split; [reflexivity|]);
    repeat split; eexists; split; reflexivity.
Qed.

(** [create_appver]: one request; an already-exists answer is re-raised in
    strict mode and logged otherwise, any other [ClientError] is dropped,
    any other exception passes. *)
Lemma create_appver_run (application bucket key label description : string)
    (strict : bool) (s : state) :
  exists s',
    create_appver application bucket key label description strict s
    = (match fst (create_application_version
                    (svc s) application label description bucket key) with
       | None => inr tt
       | Some (BotoClientError msg) =>
           if (msg =? already_exists_message label)%string
           then if strict then inl (ClientError msg) else inr tt
           else inr tt
       | Some (BotoOtherError descr) => inl (OtherBotoError descr)
       end, s')
    /\ run_to s s'
         (snd (create_application_version
                 (svc s) application label description bucket key))
         [Create application label description bucket key
            (fst (create_application_version
                    (svc s) application label description bucket key))].
Proof.
  unfold create_appver. rewrite bind_logging.
  set (s0 := snd (logging INFO "Creating application version" [] s)).
  assert (logged s s0) as L0 by apply logging_logged.
  assert (svc s0 = svc s) as C0 by apply L0.
  unfold try_except.
  destruct (create_run application label description bucket key s0)
    as (s1 & E & R). rewrite E, C0 in *. clear E.
  assert (run_to s s1
            (snd (create_application_version
                    (svc s) application label description bucket key))
            [Create application label description bucket key
               (fst (create_application_version
                       (svc s) application label description bucket key))])
    as R'.
  { exact (run_to_trans _ _ _ _ _ [] _ (logged_run_to _ _ L0) R). }
  destruct (fst (create_application_version
                   (svc s) application label description bucket key))
    as [[msg | descr]|]; cbn [of_boto].
  - destruct (msg =? already_exists_message label)%string.
    + destruct strict.
      * eexists. split; [reflexivity | exact R'].
      * eexists. split.
        -- apply injective_projections; [apply logging_logged | reflexivity].
        -- eapply run_to_logged; [exact R' | apply logging_logged].
    + eexists. split; [reflexivity | exact R'].
  - eexists. split; [reflexivity | exact R'].
  - eexists. split; [reflexivity | exact R'].
Qed.

Lemma create_zipfile_start {A : Type} (body : fileobj -> M A) (s : state) :
  exists s1,
    run_to s s1 (svc s) [TempFile (Fs.tmp_fd (fs s))]
    /\ create_zipfile body s
       = bind (try_except (_add_files_to_zipfile []) (close_and_reraise []))
           (fun zipf =>
              emit (Sealed zipf) ;;
              logging DEBUG "Closed zipfile" [] ;;
              r <- body (mkFile (Fs.tmp_fd (fs s)) zipf false) ;;
              logging DEBUG "Closed raw file" [] ;;
              ret r) s1.
Proof.
  unfold create_zipfile, bind at 1, get_fs. unfold bind at 1, emit.
  rewrite bind_logging. eexists. split; [|reflexivity].
  eapply run_to_logged; [|apply logging_logged].
  repeat split. eexists. split; reflexivity.
Qed.

(** [create_appver] returns normally exactly when the request is accepted,
    or answered with a [ClientError] that is not the already-exists one of
    a strict run. *)
Lemma create_appver_returns_iff
    (application bucket key label description : string) (strict : bool)
    (s : state) :
  fst (create_appver application bucket key label description strict s)
  = inr tt
  <-> match fst (create_application_version
                   (svc s) application label description bucket key) with
      | None => True
      | Some (BotoClientError msg) =>
          msg <> already_exists_message label \/ strict = false
      | Some (BotoOtherError _) => False
      end.
Proof.
  destruct (create_appver_run application bucket key label description
              strict s) as (s' & -> & _).
  cbn [fst].
  destruct (fst (create_application_version
                   (svc s) application label description bucket key))
    as [[msg | descr]|].
  - destruct (String.eqb_spec msg (already_exists_message label)) as [E|E].
    + destruct strict; split; auto; try discriminate.
      intros [H|H]; [contradiction | discriminate].
    + split; auto.
  - split; [discriminate | contradiction].
  - split; auto.
Qed.

(** [create_zipfile]: the temporary file, then the archive of the builder;
    the body runs on the closed archive, read position at the end. *)
Lemma create_zipfile_run {A : Type} (body : fileobj -> M A) (s : state) :
  match build s with
  | inl e =>
      exists s', create_zipfile body s = (inl e, s')
                 /\ run_to s s' (svc s)
                      [TempFile (Fs.tmp_fd (fs s)); Sealed (left_in [] s)]
  | inr zipf =>
      exists s2,
        run_to s s2 (svc s) [TempFile (Fs.tmp_fd (fs s)); Sealed zipf]
        /\ create_zipfile body s
           = (let (r, s3) := body (mkFile (Fs.tmp_fd (fs s)) zipf false) s2 in
              match r with
              | inl e => (inl e, s3)
              | inr a =>
                  (inr a, snd (logging DEBUG "Closed raw file" [] s3))
              end)
  end.
Proof.
  destruct (create_zipfile_start body s) as (s1 & R1 & ->).
  destruct (quiet_run (_add_files_to_zipfile []) s s1 (quiet_add_files []))
    as (s2 & E & L2); [apply R1|].
  fold (build s) in E.
  pose proof (run_to_logged _ _ _ _ _ R1 L2) as R2.
  destruct (build s) as [e | zipf]; unfold bind at 1, try_except; rewrite E.
  - exists (snd (emit (Sealed (left_in [] s2)) s2)).
    split; [reflexivity|].
    rewrite (left_in_fs [] s s2) by (symmetry; apply R2).
    replace (svc s) with (svc s2) at 1 by apply R2.
    exact (run_to_trans _ _ _ _ _ _ _ R2
             (run_to_emit s2 (Sealed (left_in [] s2)))).
  - exists (snd (logging DEBUG "Closed zipfile" []
                         (snd (emit (Sealed zipf) s2)))).
    split.
    + eapply run_to_logged; [|apply logging_logged].
      replace (svc s) with (svc s2) at 1 by apply R2.
      exact (run_to_trans _ _ _ _ _ _ _ R2 (run_to_emit s2 (Sealed zipf))).
    + unfold bind at 1. cbn [emit fst snd]. rewrite bind_logging.
      unfold bind at 1.
      destruct (body _ _) as [[e | a] s3]; [reflexivity|].
      rewrite bind_logging. reflexivity.
Qed.

End WithServices.

End CallFacts.

(** ** The whole run *)

Module PipelineFacts.

Import Spec Run RunFacts BuildFacts CallFacts App.

Section WithServices.

Context {ext : External}.

Local Open Scope run_scope.

Lemma run_to_print (s s' : state) (c : cloud) (acts : list event) (msg : string) :
  run_to s s' c acts ->
  run_to s (snd (emit (Print msg) s')) c (acts ++ [Print msg]).
Proof.
  intros R. pose proof (run_to_emit s' (Print msg)) as R'.
  replace (svc s') with c in R' by (symmetry; apply R).
  exact (run_to_trans _ _ _ _ _ _ _ R R').
Qed.

(** The top level, on what [main] returned or raised. *)
Lemma script_top_level (args : Args) (s s1 : state) (r : exn + unit)
    (c : cloud) (acts : list event) :
  main args s = (r, s1) -> run_to s s1 c acts ->
  exists s',
    script args s
    = (match r with inr _ => Returned | inl e => fst (top_level e) end, s')
    /\ run_to s s' c
         (acts ++ match r with inr _ => [] | inl e => snd (top_level e) end).
Proof.
  intros E R. unfold script. rewrite E.
  destruct r as [e | []].
  - destruct e; cbn [top_level fst snd];
      try (exists s1; split; [reflexivity | now rewrite List.app_nil_r]).
    eexists. split; [reflexivity | now apply run_to_print].
  - exists s1. split; [reflexivity | now rewrite List.app_nil_r].
Qed.

Lemma main_pipeline (args : Args) (s : state) :
  exists r s1 acts,
    main args s = (r, s1)
    /\ run_to s s1 (snd (fst (pipeline args s))) acts
    /\ fst (fst (pipeline args s))
       = match r with inr _ => Returned | inl e => fst (top_level e) end
    /\ snd (pipeline args s)
       = acts ++ match r with inr _ => [] | inl e => snd (top_level e) end.
Proof.
  unfold main, bind at 1, basicConfig.
  set (s0 := mkState (fs s) (svc s) (if debug args then DEBUG else INFO)
               (trace s)).
  unfold bind at 1, appver_exists, bind at 1.
  destruct (describe_run (application args) [label args] s0) as (s1 & E & R1).
  rewrite E. clear E.
  change (svc s0) with (svc s) in *.
  change (run_to s s1 (svc s)
            [Describe (application args) [label args]
               (describe_application_versions (svc s) (application args)
                  [label args])]) in R1.
  unfold pipeline.
  destruct (describe_application_versions (svc s) (application args)
              [label args]) as [e | [|v vs]].
  - do 3 eexists. split; [reflexivity|]. split; [exact R1|].
    destruct e; split; reflexivity.
  - cbn [ret List.length Nat.ltb Nat.leb].
    destruct R1 as (F1 & C1 & N1).
    pose proof (create_zipfile_run
                  (fun fileobj0 : fileobj =>
                     upload_appver (seek0 fileobj0) (application args)
                       (label args) (s3_bucket args)) s1) as Z.
    assert (build s1 = build s) as B by (apply quiet_add_files; exact F1).
    rewrite B, F1, C1, (left_in_fs [] s1 s F1) in Z.
    pose proof (conj F1 (conj C1 N1) : run_to s s1 (svc s) _) as R1.
    unfold bind at 1.
    destruct (build s) as [e | zipf].
    + destruct Z as (s2 & -> & R2).
      do 3 eexists. split; [reflexivity|]. split; [|split; reflexivity].
      replace (svc s) with (svc s1) in R2 |- * by exact C1.
      rewrite <- C1 in R1.
      exact (run_to_trans _ _ _ _ _ _ _ R1 R2).
    + destruct Z as (s2 & R2 & ->).
      unfold upload_appver. rewrite bind_logging.
      set (f := seek0 (mkFile (Fs.tmp_fd (fs s)) zipf false)).
      set (key := s3_key_of (application args) (label args)).
      set (s3 := snd (logging INFO _ _ s2)).
      assert (run_to s s3 (svc s)
                [Describe (application args) [label args] (inr []);
                 TempFile (Fs.tmp_fd (fs s)); Sealed zipf]) as R3.
      { eapply run_to_logged; [|apply logging_logged].
        exact (run_to_trans _ _ _ _ _ _ _ R1 R2). }
      destruct (upload_run (s3_bucket args) key f s3) as (s4 & Eu & Ru).
      replace (svc s3) with (svc s) in Eu, Ru by (symmetry; apply R3).
      change (read_rest f) with (Some zipf) in Eu, Ru.
      unfold bind at 1. rewrite Eu. clear Eu.
      pose proof (run_to_trans _ _ _ _ _ _ _ R3 Ru) as R4. clear Ru.
      destruct (upload_fileobj (svc s) (s3_bucket args) key (Some zipf))
        as [[counts failure] c1].
      cbn [fst snd] in R4 |- *.
      destruct failure as [e|].
      * do 3 eexists. split; [reflexivity|]. split; [exact R4|].
        destruct e; split; cbn; now rewrite ?List.app_nil_r.
      * cbn [ret]. unfold bind at 1.
        set (s5 := snd (logging DEBUG "Closed raw file" [] s4)).
        assert (run_to s s5 c1
                  ([Describe (application args) [label args] (inr []);
                    TempFile (Fs.tmp_fd (fs s)); Sealed zipf]
                   ++ [Upload (s3_bucket args) key (Some zipf) None])) as R5
          by (eapply run_to_logged; [exact R4 | apply logging_logged]).
        destruct (create_appver_run (application args) (s3_bucket args) key
                    (label args) (description args)
                    (existing_appver_is_error args) s5) as (s6 & Ec & Rc).
        replace (svc s5) with c1 in Ec, Rc by (symmetry; apply R5).
        rewrite Ec. clear Ec.
        pose proof (run_to_trans _ _ _ _ _ _ _ R5 Rc) as R6. clear Rc.
        destruct (create_application_version c1 (application args)
                    (label args) (description args) (s3_bucket args) key)
          as [failure c2].
        cbn [fst snd] in R6 |- *.
        assert (forall s7, logged s6 s7 ->
                  run_to s s7 c2
                    [Describe (application args) [label args] (inr []);
                     TempFile (Fs.tmp_fd (fs s)); Sealed zipf;
                     Upload (s3_bucket args) key (Some zipf) None;
                     Create (application args) (label args)
                       (description args) (s3_bucket args) key failure])
          as Hdone by (intros s7 L; exact (run_to_logged _ _ _ _ _ R6 L)).
        destruct failure as [[msg | descr]|]; cbn [registration_outcome].
        -- destruct (msg =? already_exists_message (label args))%string;
             [destruct (existing_appver_is_error args)|].
           ++ do 3 eexists. split; [reflexivity|].
              split; [exact R6 | split; reflexivity].
           ++ do 3 eexists. split; [apply surjective_pairing|].
              rewrite (proj1 (logging_logged _ _ _ _)).
              split; [apply Hdone, logging_logged|].
              split; [reflexivity | now rewrite List.app_nil_r].
           ++ do 3 eexists. split; [apply surjective_pairing|].
              rewrite (proj1 (logging_logged _ _ _ _)).
              split; [apply Hdone, logging_logged|].
              split; [reflexivity | now rewrite List.app_nil_r].
        -- do 3 eexists. split; [reflexivity|].
           split; [exact R6 | split; reflexivity].
        -- do 3 eexists. split; [apply surjective_pairing|].
           rewrite (proj1 (logging_logged _ _ _ _)).
           split; [apply Hdone, logging_logged|].
           split; [reflexivity | now rewrite List.app_nil_r].
  - cbn [ret List.length Nat.ltb Nat.leb].
    destruct (existing_appver_is_error args).
    + do 3 eexists. split; [reflexivity|]. split; [exact R1|].
      split; reflexivity.
    + do 3 eexists. split; [apply surjective_pairing|].
      rewrite (proj1 (logging_logged _ _ _ _)).
      split; [exact (run_to_logged _ _ _ _ _ R1 (proj2 (logging_logged _ _ _ _)))|].
      split; [reflexivity | now rewrite List.app_nil_r].
Qed.

(** The script ends, leaves the services and acts as [pipeline] says. *)
Lemma script_pipeline (args : Args) (s : state) :
  exists s',
    script args s = (fst (fst (pipeline args s)), s')
    /\ run_to s s' (snd (fst (pipeline args s))) (snd (pipeline args s)).
Proof.
  destruct (main_pipeline args s) as (r & s1 & acts & E & R & -> & ->).
  exact (script_top_level args s s1 r _ acts E R).
Qed.


Lemma new_events_run_to (s s' : state) (c : cloud) (acts : list event) :
  run_to s s' c acts -> actions (new_events s s') = acts.
Proof.
  intros (_ & _ & new & T & A). unfold new_events.
  rewrite T, skipn_app, skipn_all, Nat.sub_diag. exact A.
Qed.

(** The three observations of a run are the three components of
    [pipeline], and the filesystem is left as it was. *)
Lemma script_summary (args : Args) (s : state) :
  (outcome_of args s, services_after args s, actions_of args s)
  = pipeline args s
  /\ fs (snd (script args s)) = fs s.
Proof.
  destruct (script_pipeline args s) as (s' & E & R).
  unfold outcome_of, services_after, actions_of. rewrite E. cbn [fst snd].
  rewrite (new_events_run_to _ _ _ _ R).
  destruct R as (F & C & _). rewrite C.
  split; [|exact F]. now destruct (pipeline args s) as [[o c] acts].
Qed.

Lemma outcome_of_pipeline (args : Args) (s : state) :
  outcome_of args s = fst (fst (pipeline args s)).
Proof. now rewrite <- (proj1 (script_summary args s)). Qed.

Lemma services_after_pipeline (args : Args) (s : state) :
  services_after args s = snd (fst (pipeline args s)).
Proof. now rewrite <- (proj1 (script_summary args s)). Qed.

Lemma actions_of_pipeline (args : Args) (s : state) :
  actions_of args s = snd (pipeline args s).
Proof. now rewrite <- (proj1 (script_summary args s)). Qed.

End WithServices.

End PipelineFacts.

(** ** The cases of a run *)

Module CaseFacts.

Import Spec Run RunFacts BuildFacts CallFacts PipelineFacts App.

Section WithServices.

Context {ext : External}.

(** The version is there: nothing is built, sent or registered. *)
Lemma pipeline_found (args : Args) (s : state) (versions : list string) :
  describe_application_versions (svc s) (application args) [label args]
  = inr versions ->
  versions <> [] ->
  pipeline args s
  = if existing_appver_is_error args
    then (SystemExit 1, svc s,
          [Describe (application args) [label args] (inr versions);
           Print ("Application version '" ++ label args ++ "' already exists!")])
    else (Returned, svc s,
          [Describe (application args) [label args] (inr versions)]).
Proof.
  intros E Hne. unfold pipeline. rewrite E.
  destruct versions; [congruence | reflexivity].
Qed.

(** The one [Describe] of a run is the existence check. *)
Lemma pipeline_describe (args : Args) (s : state) (a : string)
    (ls : list string) (r : boto_error + list string) :
  In (Describe a ls r) (snd (pipeline args s)) ->
  a = application args /\ ls = [label args]
  /\ r = describe_application_versions (svc s) (application args) [label args].
Proof.
  unfold pipeline.
  destruct (describe_application_versions (svc s) (application args)
              [label args]) as [e | [|v vs]].
  - intros [[= <- <- <-]|[]]. auto.
  - destruct (build s) as [e | zipf].
    + cbn [snd]. intros H. apply in_app_or in H as [[H|[H|[H|[]]]]|H];
        try discriminate.
      * injection H as <- <- <-. auto.
      * destruct e; cbn in H; intuition discriminate.
    + destruct (upload_fileobj _ _ _ _) as [[counts [e|]] c1].
      * cbn. intros [H|[H|[H|[H|[]]]]]; try discriminate.
        injection H as <- <- <-. auto.
      * destruct (create_application_version _ _ _ _ _ _) as [failure c2].
        cbn. intros [H|[H|[H|[H|[H|[]]]]]]; try discriminate.
        injection H as <- <- <-. auto.
  - destruct (existing_appver_is_error args); cbn;
      intros H; intuition (try discriminate);
      match goal with H : Describe _ _ _ = _ |- _ => injection H as <- <- <- end;
      auto.
Qed.

(** A [Create] in a run: the version was not there, the archive was built
    and uploaded, and the run ends as the registration decides. *)
Lemma pipeline_create (args : Args) (s : state) (a l d b k : string)
    (failure : option boto_error) :
  In (Create a l d b k failure) (snd (pipeline args s)) ->
  a = application args /\ l = label args /\ d = description args
  /\ b = s3_bucket args /\ k = s3_key_of (application args) (label args)
  /\ fst (fst (pipeline args s))
     = registration_outcome (existing_appver_is_error args) (label args) failure
  /\ exists c1,
       create_application_version c1 a l d b k
       = (failure, snd (fst (pipeline args s))).
Proof.
  unfold pipeline.
  destruct (describe_application_versions (svc s) (application args)
              [label args]) as [e | [|v vs]].
  - intros [H|[]]. discriminate.
  - destruct (build s) as [e | zipf].
    + cbn [snd]. intros H. apply in_app_or in H as [[H|[H|[H|[]]]]|H];
        try discriminate.
      destruct e; cbn in H; intuition discriminate.
    + destruct (upload_fileobj _ _ _ _) as [[counts [e|]] c1].
      * cbn. intros H. intuition discriminate.
      * destruct (create_application_version c1 _ _ _ _ _)
          as [failure' c2] eqn:E.
        cbn. intros [H|[H|[H|[H|[H|[]]]]]]; try discriminate.
        injection H as <- <- <- <- <- <-.
        repeat split. exists c1. exact E.
  - destruct (existing_appver_is_error args); cbn;
      intros H; intuition discriminate.
Qed.

(** A [Create] in a run fixes all of its actions. *)
Lemma pipeline_create_actions (args : Args) (s : state) (a l d b k : string)
    (failure : option boto_error) :
  In (Create a l d b k failure) (snd (pipeline args s)) ->
  exists zipf,
    build s = inr zipf
    /\ snd (pipeline args s)
       = [Describe (application args) [label args] (inr []);
          TempFile (Fs.tmp_fd (fs s));
          Sealed zipf;
          Upload (s3_bucket args) (s3_key_of (application args) (label args))
            (Some zipf) None;
          Create (application args) (label args) (description args)
            (s3_bucket args) (s3_key_of (application args) (label args))
            failure].
Proof.
  unfold pipeline.
  destruct (describe_application_versions (svc s) (application args)
              [label args]) as [e | [|v vs]].
  - intros [H|[]]. discriminate.
  - destruct (build s) as [e | zipf].
    + cbn [snd]. intros H. apply in_app_or in H as [[H|[H|[H|[]]]]|H];
        try discriminate.
      destruct e; cbn in H; intuition discriminate.
    + destruct (upload_fileobj _ _ _ _) as [[counts [e|]] c1].
      * cbn. intros H. intuition discriminate.
      * destruct (create_application_version c1 _ _ _ _ _)
          as [failure' c2].
        cbn. intros [H|[H|[H|[H|[H|[]]]]]]; try discriminate.
        injection H as <- <- <- <- <- <-.
        exists zipf. split; reflexivity.
  - destruct (existing_appver_is_error args); cbn;
      intros H; intuition discriminate.
Qed.

End WithServices.

End CaseFacts.

(** ** An archive without entries, and a run that publishes *)

Module PublishFacts.

Import Spec Run RunFacts BuildFacts CallFacts PipelineFacts App.

Section WithServices.

Context {ext : External}.

Local Open Scope run_scope.

(** Entries that all match leave the archive as it is. *)
Lemma add_entries_all_ignored (ignore_matches : string -> bool)
    (base_dir : string) (entries : list Fs.DirEntry) :
  forall zipf s,
    (forall entry, In entry entries -> ignore_matches (Fs.path entry) = true) ->
    fst (add_entries ignore_matches base_dir entries zipf s) = inr zipf.
Proof.
  induction entries as [|entry rest IH]; intros zipf s Hall; [reflexivity|].
  cbn [add_entries]. rewrite (Hall entry (or_introl eq_refl)), bind_logging.
  apply IH. intros e He. apply Hall. now right.
Qed.

(** A working directory whose files all match gives the empty archive. *)
Lemma build_all_ignored (s : state) (base_dir : string) (m : string -> bool) :
  Fs.getcwd (fs s) = Some base_dir ->
  fst (load_ignore_matches s) = inr m ->
  (forall entry,
     In entry (_scantree base_dir (Fs.cwd_listing (fs s))) ->
     m (Fs.path entry) = true) ->
  build s = inr [].
Proof.
  intros Hcwd Hload Hall.
  pose proof (proj1 quiet_load_ignore_matches s) as (Hfs & _).
  unfold build, _add_files_to_zipfile, bind at 1.
  destruct (load_ignore_matches s) as [[e | m'] s1]; simpl in Hload, Hfs;
    [discriminate | injection Hload as ->].
  unfold bind at 1, getcwd, bind at 1, get_fs. rewrite Hfs, Hcwd. cbn [ret].
  unfold bind at 1. rewrite Hfs. unfold bind at 1.
  pose proof (add_entries_all_ignored m base_dir _ [] s1 Hall) as Hloop.
  destruct (add_entries _ _ _ _ s1) as [[e | zipf] s2]; simpl in Hloop;
    [discriminate | injection Hloop as ->].
  rewrite bind_logging. reflexivity.
Qed.

(** The run that finds no version, builds [zipf], and has its upload and
    its registration accepted. *)
Lemma pipeline_published (args : Args) (s : state) (zipf : Zip.zipfile)
    (counts : list nat) (c1 c2 : cloud) :
  describe_application_versions (svc s) (application args) [label args]
  = inr [] ->
  build s = inr zipf ->
  upload_fileobj (svc s) (s3_bucket args)
    (s3_key_of (application args) (label args)) (Some zipf)
  = (counts, None, c1) ->
  create_application_version c1 (application args) (label args)
    (description args) (s3_bucket args)
    (s3_key_of (application args) (label args))
  = (None, c2) ->
  pipeline args s
  = (Returned, c2,
     [Describe (application args) [label args] (inr []);
      TempFile (Fs.tmp_fd (fs s));
      Sealed zipf;
      Upload (s3_bucket args) (s3_key_of (application args) (label args))
        (Some zipf) None;
      Create (application args) (label args) (description args)
        (s3_bucket args) (s3_key_of (application args) (label args)) None]).
Proof.
  intros Hd Hb Hu Hc. unfold pipeline. now rewrite Hd, Hb, Hu, Hc.
Qed.

End WithServices.

End PublishFacts.

(** * The claims *)

Section Claims.

Import Spec Run App.
Import RunFacts BuildFacts CallFacts PipelineFacts CaseFacts PublishFacts.

Context {ext : External}.

(** C6. When a version with the requested label is already there and
    [--existing-appver-is-error] is set, the process exits with code 1,
    having printed the message and no stack trace; its only request is the
    existence check: no temporary file, no archive, no upload, no
    registration, and the services are left as they were. *)
Theorem strict_existing_version_exits_1 (args : Args) (s : state)
    (versions : list string) :
  existing_appver_is_error args = true ->
  describe_application_versions (svc s) (application args) [label args]
  = inr versions ->
  versions <> [] ->
  outcome_of args s = SystemExit 1
  /\ exit_code (outcome_of args s) = 1
  /\ stack_trace (outcome_of args s) = false
  /\ actions_of args s
     = [Describe (application args) [label args] (inr versions);
        Print ("Application version '" ++ label args ++ "' already exists!")]
  /\ existsb publishes (actions_of args s) = false
  /\ services_after args s = svc s.
Proof.
  intros Hstrict Hfound Hne.
  rewrite outcome_of_pipeline, actions_of_pipeline, services_after_pipeline.
  rewrite (pipeline_found _ _ _ Hfound Hne), Hstrict.
  repeat split.
Qed.

(** C5. When the existence check finds the label and strict mode is off,
    the run is a no-op: it ends with status 0 and its only action is the
    existence check, so nothing is built, uploaded or registered. In
    particular, a run that starts where an earlier run left off, after that
    run's registration of the same application and label was accepted, is
    such a no-op, for an orchestrator that lists what it created. *)
Theorem existing_version_is_noop (args : Args) (s : state) :
  existing_appver_is_error args = false ->
  (forall versions,
     describe_application_versions (svc s) (application args) [label args]
     = inr versions ->
     versions <> [] ->
     noop args s versions)
  /\ (forall first s0 d b k,
        s = snd (script first s0) ->
        In (Create (application args) (label args) d b k None)
           (actions_of first s0) ->
        created_are_described ->
        exists versions, versions <> [] /\ noop args s versions).
Proof.
  intros Hstrict.
  assert (forall versions,
            describe_application_versions (svc s) (application args)
              [label args] = inr versions ->
            versions <> [] -> noop args s versions) as Hnoop.
  { intros versions Hfound Hne. unfold noop.
    rewrite outcome_of_pipeline, actions_of_pipeline, services_after_pipeline.
    rewrite (pipeline_found _ _ _ Hfound Hne), Hstrict.
    repeat split. }
  split; [exact Hnoop|].
  intros first s0 d b k -> Hcreate Hlists.
  rewrite actions_of_pipeline in Hcreate.
  apply pipeline_create in Hcreate as (_ & _ & _ & _ & _ & _ & c1 & Hc).
  rewrite <- services_after_pipeline in Hc.
  destruct (Hlists _ _ _ _ _ _ _ Hc) as (versions & Hd & Hne).
  exists versions. split; [exact Hne|]. now apply Hnoop.
Qed.

(** C2, as amended. In strict mode an idempotency conflict ends the process
    with code 1 either way. Found by the existence check, it is a clean
    exit: the message is printed, nothing else is done and there is no
    stack trace. Reported by the orchestrator at registration time, the
    [ClientError] is re-raised as it is and nobody catches it: the
    interpreter ends with status 1 and a stack trace, and the script prints
    no message of its own. *)
Theorem strict_conflict_exits_1 (args : Args) (s : state) :
  existing_appver_is_error args = true ->
  (forall versions,
     In (Describe (application args) [label args] (inr versions))
        (actions_of args s) ->
     versions <> [] ->
     outcome_of args s = SystemExit 1
     /\ exit_code (outcome_of args s) = 1
     /\ stack_trace (outcome_of args s) = false
     /\ actions_of args s
        = [Describe (application args) [label args] (inr versions);
           Print ("Application version '" ++ label args
                  ++ "' already exists!")])
  /\ (forall d b k,
        In (Create (application args) (label args) d b k
              (Some (BotoClientError (already_exists_message (label args)))))
           (actions_of args s) ->
        outcome_of args s
        = Uncaught (ClientError (already_exists_message (label args)))
        /\ exit_code (outcome_of args s) = 1
        /\ stack_trace (outcome_of args s) = true
        /\ existsb Shape.is_print (actions_of args s) = false).
Proof.
  intros Hstrict. split.
  - intros versions Hin Hne.
    rewrite actions_of_pipeline in Hin.
    apply pipeline_describe in Hin as (_ & _ & Hfound). symmetry in Hfound.
    rewrite outcome_of_pipeline, actions_of_pipeline.
    rewrite (pipeline_found _ _ _ Hfound Hne), Hstrict.
    repeat split.
  - intros d b k Hin.
    rewrite actions_of_pipeline in Hin.
    destruct (pipeline_create_actions _ _ _ _ _ _ _ _ Hin)
      as (zipf & _ & Hacts).
    apply pipeline_create in Hin as (_ & _ & _ & _ & _ & Hout & _).
    rewrite outcome_of_pipeline, actions_of_pipeline, Hout, Hstrict, Hacts.
    cbn [registration_outcome]. rewrite String.eqb_refl.
    repeat split.
Qed.

(** C9. A working directory that is empty, or whose every file matches the
    ignore predicate, gives an archive without entries and no error; when
    the version is not there yet and the services accept the upload and the
    registration, the run uploads that empty archive, registers it and ends
    with status 0. *)
Theorem empty_archive_is_published (args : Args) (s : state)
    (base_dir : string) (m : string -> bool) (counts : list nat)
    (c1 c2 : cloud) :
  Fs.getcwd (fs s) = Some base_dir ->
  fst (load_ignore_matches s) = inr m ->
  Fs.cwd_listing (fs s) = []
  \/ (forall entry,
        In entry (_scantree base_dir (Fs.cwd_listing (fs s))) ->
        m (Fs.path entry) = true) ->
  describe_application_versions (svc s) (application args) [label args]
  = inr [] ->
  upload_fileobj (svc s) (s3_bucket args)
    (s3_key_of (application args) (label args)) (Some [])
  = (counts, None, c1) ->
  create_application_version c1 (application args) (label args)
    (description args) (s3_bucket args)
    (s3_key_of (application args) (label args))
  = (None, c2) ->
  fst (_add_files_to_zipfile [] s) = inr []
  /\ outcome_of args s = Returned
  /\ exit_code (outcome_of args s) = 0
  /\ actions_of args s
     = [Describe (application args) [label args] (inr []);
        TempFile (Fs.tmp_fd (fs s));
        Sealed [];
        Upload (s3_bucket args) (s3_key_of (application args) (label args))
          (Some []) None;
        Create (application args) (label args) (description args)
          (s3_bucket args) (s3_key_of (application args) (label args)) None]
  /\ services_after args s = c2.
Proof.
  intros Hcwd Hload Hfiles Hd Hu Hc.
  assert (build s = inr []) as Hb.
  { apply (build_all_ignored s base_dir m Hcwd Hload).
    destruct Hfiles as [-> | Hall]; [intros entry [] | exact Hall]. }
  split; [exact Hb|].
  rewrite outcome_of_pipeline, actions_of_pipeline, services_after_pipeline.
  rewrite (pipeline_published args s [] counts c1 c2 Hd Hb Hu Hc).
  repeat split.
Qed.

(** C10. Two runs that differ in [--debug] only, started in the same state,
    end the same way, with the same exit code, and do the same things in
    the same order: the same temporary file and archive, the same requests
    with the same storage key and the same responses; they leave the
    services and the filesystem in the same state. Only the log records
    can differ. *)
Theorem debug_changes_logging_only
    (application label s3_bucket description : string) (strict : bool)
    (s : state) :
  let run dbg :=
    mkArgs application label s3_bucket description dbg strict in
  outcome_of (run true) s = outcome_of (run false) s
  /\ exit_code (outcome_of (run true) s) = exit_code (outcome_of (run false) s)
  /\ actions_of (run true) s = actions_of (run false) s
  /\ services_after (run true) s = services_after (run false) s
  /\ fs (snd (script (run true) s)) = fs (snd (script (run false) s)).
Proof.
  intros run.
  rewrite !outcome_of_pipeline, !actions_of_pipeline, !services_after_pipeline.
  rewrite (proj2 (script_summary (run true) s)).
  rewrite (proj2 (script_summary (run false) s)).
  repeat split.
Qed.

(** C7. The storage key is the application, a slash, the label and
    [.zip], so [myapp/v42.zip] for [myapp] and [v42]: a function of the two
    names alone. The upload step sends the object to that key and, when the
    upload is accepted, returns it; the key of every registration request of
    a run is that key. *)
Theorem storage_key_is_application_slash_label (f : fileobj) (args : Args)
    (s : state) :
  let key := (application args ++ "/" ++ label args ++ ".zip")%string in
  let sent := upload_fileobj (svc s) (s3_bucket args) key (read_rest f) in
  s3_key_of "myapp" "v42" = "myapp/v42.zip"
  /\ s3_key_of (application args) (label args) = key
  /\ fst (upload_appver f (application args) (label args) (s3_bucket args) s)
     = match snd (fst sent) with
       | Some e => inl (of_boto e)
       | None => inr key
       end
  /\ actions
       (new_events s
          (snd (upload_appver f (application args) (label args)
                  (s3_bucket args) s)))
     = [Upload (s3_bucket args) key (read_rest f) (snd (fst sent))]
  /\ (forall a l d b k r,
        In (Create a l d b k r) (actions_of args s) -> k = key).
Proof.
  intros key sent. split; [reflexivity|]. split; [reflexivity|].
  assert (exists s',
            upload_appver f (application args) (label args) (s3_bucket args) s
            = (match snd (fst sent) with
               | Some e => inl (of_boto e)
               | None => inr key
               end, s')
            /\ run_to s s' (snd sent)
                 [Upload (s3_bucket args) key (read_rest f) (snd (fst sent))])
    as (s' & E & R).
  { unfold upload_appver. rewrite bind_logging.
    set (s1 := snd (logging INFO _ _ s)).
    assert (logged s s1) as L by apply logging_logged.
    destruct (upload_run (s3_bucket args)
                (s3_key_of (application args) (label args)) f s1)
      as (s2 & E & R).
    replace (svc s1) with (svc s) in E, R by (symmetry; apply L).
    unfold bind at 1. rewrite E.
    change (s3_key_of (application args) (label args)) with key in R |- *.
    fold sent in R |- *.
    exists s2. split.
    - now destruct (snd (fst sent)).
    - exact (run_to_trans _ _ _ _ _ [] _ (logged_run_to _ _ L) R). }
  rewrite E. cbn [fst snd]. split; [reflexivity|].
  split; [exact (new_events_run_to _ _ _ _ R)|].
  intros a l d b k r Hin. rewrite actions_of_pipeline in Hin.
  now apply pipeline_create in Hin as (_ & _ & _ & _ & -> & _).
Qed.

(** C8. The ignore predicate comes from [.ebignore] when the working
    directory holds a regular file of that name, whatever else it holds;
    otherwise from [.gitignore] when it holds that one; with neither, it
    is false everywhere. With both files only [.ebignore] counts. *)
Theorem ebignore_before_gitignore (s : state) :
  let base_dir := ("/" ++ Str.join_sep (Fs.cwd (fs s)))%string in
  exists m,
    fst (load_ignore_matches s) = inr m
    /\ m = match ignore_file (fs s) ".ebignore",
                 ignore_file (fs s) ".gitignore" with
           | Some rules, _ => parse_gitignore base_dir rules
           | None, Some rules => parse_gitignore base_dir rules
           | None, None => fun _ => false
           end.
Proof.
  intros base_dir.
  destruct (load_ignore_matches_result s) as (m & Hload & Hm).
  exists m. split; [exact Hload|]. unfold ignore_file.
  destruct (Fs.find_child ".ebignore" (Fs.cwd_listing (fs s)))
    as [[? ?|? ?]|];
    try exact Hm;
    destruct (Fs.find_child ".gitignore" (Fs.cwd_listing (fs s)))
      as [[? ?|? ?]|]; exact Hm.
Qed.

(** X15. In a working directory other than the root of the filesystem,
    the traversal visits every regular file once, with [entry.path] the
    working directory, a slash and the relative path of the file, and that
    is the value the loop hands to the ignore predicate. Files for which the
    predicate is true of it are skipped; the others are added, in traversal
    order, under their relative path and with their contents; no entry is
    a directory. *)
Theorem absolute_path_is_tested (s : state) (listing : list Fs.node)
    (m : string -> bool) :
  Fs.wf_listing (Fs.root (fs s)) = true ->
  Fs.cwd (fs s) <> [] ->
  Fs.lookup (Fs.root (fs s)) (Fs.cwd (fs s)) = Some (Fs.FoundDir listing) ->
  fst (load_ignore_matches s) = inr m ->
  let base_dir := ("/" ++ Str.join_sep (Fs.cwd (fs s)))%string in
  let tested f := (base_dir ++ "/" ++ Str.join_sep (fst f))%string in
  let added := filter (fun f => negb (m (tested f))) (Fs.files_under listing) in
  Fs.getcwd (fs s) = Some base_dir
  /\ _scantree base_dir listing
     = map (fun f => Fs.mkEntry (tested f)) (Fs.files_under listing)
  /\ exists zipf,
       fst (_add_files_to_zipfile [] s) = inr zipf
       /\ zipf = map (fun f => Zip.mkEntry (Str.join_sep (fst f)) false (snd f))
                    added
       /\ Zip.namelist zipf = map (fun f => Str.join_sep (fst f)) added
       /\ forallb (fun e => negb (Zip.is_dir e)) zipf = true.
Proof.
  intros Hwf Hne Hcwd Hload base_dir tested added.
  destruct (ScanFacts.getcwd_below_root _ Hwf Hne _ Hcwd)
    as (Hget & Hend & Hsub).
  split; [exact Hget|]. split.
  - apply ScanFacts.scantree_files; [exact Hsub | discriminate | exact Hend].
  - eexists. split; [exact (add_files_below_root s listing m Hwf Hne Hcwd Hload)|].
    split; [reflexivity|]. split.
    + unfold Zip.namelist. rewrite map_map. reflexivity.
    + apply forallb_forall. intros e He.
      apply in_map_iff in He as (f & <- & _). reflexivity.
Qed.

End Claims.

(** * Concrete runs *)

(** The runs below use the stand-in services of [Sim]: the instances the
    general statements are applied to, and the inputs on which the program
    departs from what is claimed of it. *)

Section Runs.

Import Spec Run App.

Lemma sim_lists_created : @created_are_described Sim.services.
Proof.
  intros c application label description bucket key c'. cbn.
  unfold Sim.create, Sim.describe.
  destruct (Sim.create_failure c); [discriminate|].
  destruct (Sim.registered c application label) eqn:E; [discriminate|].
  intros [= <-]. exists [label]. split; [|discriminate].
  cbn. unfold Sim.registered. cbn. now rewrite !String.eqb_refl.
Qed.

(** C6 at work: [v42] is registered and the run is strict. *)
Lemma strict_existing_version_run :
  outcome_of (Sim.args true false) Sim.registered_v42 = SystemExit 1
  /\ exit_code (outcome_of (Sim.args true false) Sim.registered_v42) = 1
  /\ stack_trace (outcome_of (Sim.args true false) Sim.registered_v42) = false
  /\ actions_of (Sim.args true false) Sim.registered_v42
     = [Describe "myapp" ["v42"] (inr ["v42"]);
        Print "Application version 'v42' already exists!"]
  /\ existsb publishes (actions_of (Sim.args true false) Sim.registered_v42)
     = false
  /\ services_after (Sim.args true false) Sim.registered_v42
     = Sim.v42_registered.
Proof.
  apply (strict_existing_version_exits_1
           (Sim.args true false) Sim.registered_v42 ["v42"]);
    [reflexivity | reflexivity | discriminate].
Defined.

(** C5 at work: a run finds [v42] registered; and a second run, after a
    first one that registered it, finds it too. *)
Lemma existing_version_run :
  noop (Sim.args false false) Sim.registered_v42 ["v42"]
  /\ exists versions,
       versions <> []
       /\ noop (Sim.args false true)
            (snd (script (Sim.args false false) Sim.fresh)) versions.
Proof.
  split.
  - apply (existing_version_is_noop
             (Sim.args false false) Sim.registered_v42 eq_refl);
      [reflexivity | discriminate].
  - apply (proj2 (existing_version_is_noop
                    (Sim.args false true)
                    (snd (script (Sim.args false false) Sim.fresh)) eq_refl)
             (Sim.args false false) Sim.fresh "" "bkt" "myapp/v42.zip");
      [reflexivity | vm_compute; tauto | exact sim_lists_created].
Defined.

(** C2 as stated fails: the run is strict and the orchestrator reports the
    conflict at registration time, yet the process does not end with a
    printed message only. The [ClientError] reaches the top level uncaught,
    which is a stack trace. *)
Lemma strict_race_ends_in_stack_trace :
  existing_appver_is_error (Sim.args true false) = true
  /\ In (Create "myapp" "v42" "" "bkt" "myapp/v42.zip"
           (Some (BotoClientError "Application Version v42 already exists.")))
        (actions_of (Sim.args true false) Sim.raced)
  /\ outcome_of (Sim.args true false) Sim.raced
     = Uncaught (ClientError "Application Version v42 already exists.")
  /\ stack_trace (outcome_of (Sim.args true false) Sim.raced) = true
  /\ existsb (fun e => match e with Print _ => true | _ => false end)
       (actions_of (Sim.args true false) Sim.raced) = false.
Proof. vm_compute. tauto. Qed.

(** C2 as amended, at work on both conflicts. *)
Lemma strict_conflict_runs :
  (outcome_of (Sim.args true false) Sim.registered_v42 = SystemExit 1
   /\ exit_code (outcome_of (Sim.args true false) Sim.registered_v42) = 1
   /\ stack_trace (outcome_of (Sim.args true false) Sim.registered_v42) = false
   /\ actions_of (Sim.args true false) Sim.registered_v42
      = [Describe "myapp" ["v42"] (inr ["v42"]);
         Print "Application version 'v42' already exists!"])
  /\ (outcome_of (Sim.args true false) Sim.raced
      = Uncaught (ClientError "Application Version v42 already exists.")
      /\ exit_code (outcome_of (Sim.args true false) Sim.raced) = 1
      /\ stack_trace (outcome_of (Sim.args true false) Sim.raced) = true
      /\ existsb Shape.is_print (actions_of (Sim.args true false) Sim.raced)
         = false).
Proof.
  split.
  - apply (proj1 (strict_conflict_exits_1
                    (Sim.args true false) Sim.registered_v42 eq_refl)
             ["v42"]);
      [vm_compute; tauto | discriminate].
  - apply (proj2 (strict_conflict_exits_1
                    (Sim.args true false) Sim.raced eq_refl)
             "" "bkt" "myapp/v42.zip").
    vm_compute. tauto.
Defined.

(** C3 fails in the root directory. The script runs in ["/"], which holds
    the regular file [ab] and the empty directory [b], and no ignore file.
    The one entry visited is [/ab]; the predicate matches neither that path
    nor [ab], so the file is to be added under [ab]. The name the loop hands
    to [zipf.write] is [b]: no member is named [ab], and the one member
    there is has the name [b/]. *)
Lemma root_directory_entry_name :
  exists m zipf,
    fst (load_ignore_matches Sim.in_root) = inr m
    /\ map Fs.path (_scantree "/" (Fs.cwd_listing Sim.slash_fs)) = ["/ab"]
    /\ m "/ab" = false
    /\ m "ab" = false
    /\ In (["ab"], "data") (Fs.files_under (Fs.cwd_listing Sim.slash_fs))
    /\ fst (_add_files_to_zipfile [] Sim.in_root) = inr zipf
    /\ Zip.namelist zipf = ["b/"]
    /\ existsb (String.eqb "ab") (Zip.namelist zipf) = false.
Proof.
  exists (fun _ => false). eexists. vm_compute. repeat split. now left.
Qed.

(** X15 at work in [/srv/app]. *)
Lemma absolute_path_run :
  Fs.getcwd Sim.project_fs = Some "/srv/app"
  /\ _scantree "/srv/app" Sim.project
     = [Fs.mkEntry "/srv/app/app.py"; Fs.mkEntry "/srv/app/static/site.css";
        Fs.mkEntry "/srv/app/.ebignore"]
  /\ exists zipf,
       fst (_add_files_to_zipfile [] Sim.fresh) = inr zipf
       /\ zipf = [Zip.mkEntry "static/site.css" false "body{}";
                  Zip.mkEntry ".ebignore" false "app.py"]
       /\ Zip.namelist zipf = ["static/site.css"; ".ebignore"]
       /\ forallb (fun e => negb (Zip.is_dir e)) zipf = true.
Proof.
  exact (absolute_path_is_tested Sim.fresh Sim.project
           (Sim.parse "/srv/app" "app.py")
           eq_refl (fun H => nil_cons (eq_sym H)) eq_refl eq_refl).
Defined.

(** C1 fails in the root directory. The script runs in ["/"], which holds
    the regular file [ab] and the empty directory [b], and no ignore file.
    The relative path it computes for [/ab] is [b]: the archive it seals
    has the directory [b/] as its only entry, and not the file. *)
Lemma root_directory_archive :
  Fs.getcwd Sim.slash_fs = Some "/"
  /\ Fs.wf_listing (Fs.root Sim.slash_fs) = true
  /\ Fs.files_under (Fs.cwd_listing Sim.slash_fs) = [(["ab"], "data")]
  /\ _scantree "/" (Fs.cwd_listing Sim.slash_fs) = [Fs.mkEntry "/ab"]
  /\ Str.slice_from (String.length "/" + 1) "/ab" = "b"
  /\ fst (_add_files_to_zipfile [] Sim.in_root)
     = inr [Zip.mkEntry "b/" true ""].
Proof. vm_compute. repeat split. Qed.

(** C4 fails on any other [ClientError]. The orchestrator answers the
    registration with [No Application named 'myapp' found.]: the
    registration step returns normally, strict or not, and the whole run
    ends with status 0 although nothing was registered. *)
Lemma other_client_error_is_dropped :
  fst (create_appver "myapp" "bkt" "myapp/v42.zip" "v42" "" false Sim.refused)
  = inr tt
  /\ fst (create_appver "myapp" "bkt" "myapp/v42.zip" "v42" "" true Sim.refused)
     = inr tt
  /\ In (Create "myapp" "v42" "" "bkt" "myapp/v42.zip"
           (Some (BotoClientError "No Application named 'myapp' found.")))
        (actions_of (Sim.args true false) Sim.refused)
  /\ outcome_of (Sim.args true false) Sim.refused = Returned
  /\ exit_code (outcome_of (Sim.args true false) Sim.refused) = 0
  /\ Sim.versions (services_after (Sim.args true false) Sim.refused) = [].
Proof. vm_compute. tauto. Qed.

(** C9 at work in the empty [/srv/empty]. *)
Lemma empty_directory_run :
  fst (_add_files_to_zipfile [] Sim.in_empty) = inr []
  /\ outcome_of (Sim.args false false) Sim.in_empty = Returned
  /\ exit_code (outcome_of (Sim.args false false) Sim.in_empty) = 0
  /\ actions_of (Sim.args false false) Sim.in_empty
     = [Describe "myapp" ["v42"] (inr []);
        TempFile 3;
        Sealed [];
        Upload "bkt" "myapp/v42.zip" (Some []) None;
        Create "myapp" "v42" "" "bkt" "myapp/v42.zip" None]
  /\ services_after (Sim.args false false) Sim.in_empty
     = Sim.mkCloud [("myapp", "v42")] [("bkt", "myapp/v42.zip")] None.
Proof.
  exact (empty_archive_is_published (Sim.args false false) Sim.in_empty
           "/srv/empty" (fun _ => false) [0]
           (Sim.mkCloud [] [("bkt", "myapp/v42.zip")] None)
           (Sim.mkCloud [("myapp", "v42")] [("bkt", "myapp/v42.zip")] None)
           eq_refl eq_refl (or_introl eq_refl) eq_refl eq_refl eq_refl).
Defined.

(** C7 at work: the key of the upload and of the registration. *)
Lemma storage_key_run :
  fst (upload_appver (mkFile 3 [] true) "myapp" "v42" "bkt" Sim.fresh)
  = inr "myapp/v42.zip"
  /\ forall a l d b k r,
       In (Create a l d b k r) (actions_of (Sim.args false false) Sim.fresh) ->
       k = "myapp/v42.zip".
Proof.
  pose proof (storage_key_is_application_slash_label
                (mkFile 3 [] true) (Sim.args false false) Sim.fresh)
    as (_ & _ & Hret & _ & Hkey).
  split; [exact Hret | exact Hkey].
Defined.

End Runs.

(** * More on the run: failures, order and the two flags *)

Module ErrorFacts.

Import Spec Shape Run RunFacts BuildFacts App.

Section WithServices.

Context {ext : External}.

Local Open Scope run_scope.

Lemma no_program_error_bind {A B : Type} (m : M A) (k : A -> M B) :
  no_program_error m -> (forall a, no_program_error (k a)) ->
  no_program_error (bind m k).
Proof.
  intros Hm Hk s msg. unfold bind. specialize (Hm s msg).
  destruct (m s) as [[e | a] s']; [|apply Hk].
  simpl in *. intros [= ->]. now apply Hm.
Qed.

Lemma no_program_error_ret {A : Type} (a : A) : no_program_error (ret a).
Proof. intros s msg. discriminate. Qed.

Lemma no_program_error_logging (lvl : level) (fmt : string)
    (args : list logarg) :
  no_program_error (logging lvl fmt args).
Proof.
  intros s msg. rewrite (proj1 (logging_logged lvl fmt args s)). discriminate.
Qed.

Lemma no_program_error_add_entries (ignore_matches : string -> bool)
    (base_dir : string) (entries : list Fs.DirEntry) :
  forall zipf, no_program_error (add_entries ignore_matches base_dir entries zipf).
Proof.
  induction entries as [|entry rest IH]; intros zipf; simpl.
  - apply no_program_error_ret.
  - destruct (ignore_matches (Fs.path entry)).
    + apply no_program_error_bind; [apply no_program_error_logging | auto].
    + apply no_program_error_bind; [apply no_program_error_logging | intros _].
      apply no_program_error_bind; [|auto].
      intros s msg. unfold zip_write, bind, get_fs.
      destruct (Zip.write (fs s) zipf _) as [[?|] | ?]; discriminate.
Qed.

(** The builder raises what the filesystem and [zipfile] raise, never the
    script's own [ProgramError]. *)
Lemma no_program_error_add_files (zipf : Zip.zipfile) :
  no_program_error (_add_files_to_zipfile zipf).
Proof.
  unfold _add_files_to_zipfile.
  apply no_program_error_bind.
  { intros s msg.
    destruct (load_ignore_matches_result s) as (m & -> & _). discriminate. }
  intros m. apply no_program_error_bind.
  { intros s msg. unfold getcwd, bind, get_fs.
    destruct (Fs.getcwd (fs s)); discriminate. }
  intros base. apply no_program_error_bind.
  { intros s msg. discriminate. }
  intros fs. apply no_program_error_bind;
    [apply no_program_error_add_entries | intros zipf'].
  apply no_program_error_bind;
    [apply no_program_error_logging | intros; apply no_program_error_ret].
Qed.

Lemma top_level_build_error (s : state) (e : exn) :
  build s = inl e -> top_level e = (Uncaught e, []).
Proof.
  intros H. destruct e; try reflexivity.
  exfalso. exact (no_program_error_add_files [] s msg H).
Qed.

(** The status the registration leads to. *)
Lemma registration_outcome_status (strict : bool) (label : string)
    (failure : option boto_error) :
  (exit_code (registration_outcome strict label failure) = 0
   <-> match failure with
       | None => True
       | Some (BotoClientError msg) =>
           msg <> already_exists_message label \/ strict = false
       | Some (BotoOtherError _) => False
       end)
  /\ exit_code (registration_outcome strict label failure) <= 1.
Proof.
  unfold registration_outcome.
  destruct failure as [[msg | descr]|].
  - destruct (String.eqb_spec msg (already_exists_message label)) as [E|E].
    + destruct strict; cbn; split; try lia; split; auto; try discriminate.
      intros [H|H]; [contradiction | discriminate].
    + cbn. split; [split; auto | lia].
  - cbn. split; [split; [discriminate | contradiction] | lia].
  - cbn. split; [split; auto | lia].
Qed.

End WithServices.

End ErrorFacts.

Section MoreOnRuns.

Import Spec Shape Run App.
Import RunFacts BuildFacts CallFacts PipelineFacts CaseFacts ErrorFacts.

Context {ext : External}.

(** X3. When the existence check raises, the exception leaves the script
    uncaught: the process ends with status 1 and a stack trace, having made
    that one request and nothing else. *)
Theorem existence_check_error_propagates (args : Args) (s : state)
    (e : boto_error) :
  describe_application_versions (svc s) (application args) [label args]
  = inl e ->
  outcome_of args s = Uncaught (of_boto e)
  /\ exit_code (outcome_of args s) = 1
  /\ actions_of args s
     = [Describe (application args) [label args] (inl e)]
  /\ services_after args s = svc s.
Proof.
  intros He.
  rewrite outcome_of_pipeline, actions_of_pipeline, services_after_pipeline.
  unfold pipeline. rewrite He. repeat split.
Qed.

(** X7. When the builder raises, nothing is uploaded or registered: after
    the existence check and the creation of the temporary file, the archive
    is closed with what was written before the exception, and the exception
    leaves the script uncaught. *)
Theorem build_error_stops_the_run (args : Args) (s : state) (e : exn) :
  describe_application_versions (svc s) (application args) [label args]
  = inr [] ->
  fst (_add_files_to_zipfile [] s) = inl e ->
  outcome_of args s = Uncaught e
  /\ exit_code (outcome_of args s) = 1
  /\ actions_of args s
     = [Describe (application args) [label args] (inr []);
        TempFile (Fs.tmp_fd (fs s));
        Sealed (left_in [] s)]
  /\ existsb is_upload (actions_of args s) = false
  /\ existsb is_create (actions_of args s) = false
  /\ services_after args s = svc s.
Proof.
  intros Hd Hb. fold (build s) in Hb.
  rewrite outcome_of_pipeline, actions_of_pipeline, services_after_pipeline.
  unfold pipeline. rewrite Hd, Hb, (top_level_build_error s e Hb).
  repeat split.
Qed.

(** X4. When the upload raises, the exception leaves the script uncaught
    and no registration request is made: the run stops after sending the
    complete archive to [s3_bucket] under the storage key. *)
Theorem upload_error_stops_before_registration (args : Args) (s : state)
    (zipf : Zip.zipfile) (counts : list nat) (e : boto_error) (c1 : cloud) :
  describe_application_versions (svc s) (application args) [label args]
  = inr [] ->
  fst (_add_files_to_zipfile [] s) = inr zipf ->
  upload_fileobj (svc s) (s3_bucket args)
    (s3_key_of (application args) (label args)) (Some zipf)
  = (counts, Some e, c1) ->
  outcome_of args s = Uncaught (of_boto e)
  /\ exit_code (outcome_of args s) = 1
  /\ actions_of args s
     = [Describe (application args) [label args] (inr []);
        TempFile (Fs.tmp_fd (fs s));
        Sealed zipf;
        Upload (s3_bucket args) (s3_key_of (application args) (label args))
          (Some zipf) (Some e)]
  /\ existsb is_create (actions_of args s) = false
  /\ services_after args s = c1.
Proof.
  intros Hd Hb Hu. fold (build s) in Hb.
  rewrite outcome_of_pipeline, actions_of_pipeline, services_after_pipeline.
  unfold pipeline. rewrite Hd, Hb, Hu.
  destruct e; repeat split.
Qed.

(** X6. A registration request is only made at the end of a run that found
    no version, built the archive and had the upload of the complete archive
    accepted; the source bundle it names is the bucket and key of that
    upload, and the description is the one given. *)
Theorem registration_follows_accepted_upload (args : Args) (s : state)
    (a l d b k : string) (r : option boto_error) :
  In (Create a l d b k r) (actions_of args s) ->
  exists zipf,
    fst (_add_files_to_zipfile [] s) = inr zipf
    /\ actions_of args s
       = [Describe (application args) [label args] (inr []);
          TempFile (Fs.tmp_fd (fs s));
          Sealed zipf;
          Upload (s3_bucket args) (s3_key_of (application args) (label args))
            (Some zipf) None;
          Create (application args) (label args) (description args)
            (s3_bucket args) (s3_key_of (application args) (label args)) r].
Proof.
  rewrite actions_of_pipeline. unfold pipeline, build.
  destruct (describe_application_versions (svc s) (application args)
              [label args]) as [e | [|v vs]].
  - intros [H|[]]. discriminate.
  - destruct (fst (_add_files_to_zipfile [] s)) as [e | zipf] eqn:Hb.
    + cbn [snd]. intros H. apply in_app_or in H as [[H|[H|[H|[]]]]|H];
        try discriminate.
      destruct e; cbn in H; intuition discriminate.
    + destruct (upload_fileobj _ _ _ _) as [[counts [e|]] c1].
      * cbn. intros H. intuition discriminate.
      * destruct (create_application_version c1 _ _ _ _ _)
          as [failure' c2].
        cbn. intros [H|[H|[H|[H|[H|[]]]]]]; try discriminate.
        injection H as <- <- <- <- <- <-.
        exists zipf. split; reflexivity.
  - destruct (existing_appver_is_error args); cbn;
      intros H; intuition discriminate.
Qed.

(** X5. The clean exit, [sys.exit(1)] after a printed message, happens in
    one case only: strict mode with the version found by the existence
    check. Every other failure of a run is an uncaught exception. *)
Theorem clean_exit_only_for_strict_conflict (args : Args) (s : state)
    (code : nat) :
  outcome_of args s = SystemExit code ->
  code = 1
  /\ existing_appver_is_error args = true
  /\ exists v versions,
       describe_application_versions (svc s) (application args) [label args]
       = inr (v :: versions)
       /\ actions_of args s
          = [Describe (application args) [label args] (inr (v :: versions));
             Print ("Application version '" ++ label args
                    ++ "' already exists!")].
Proof.
  rewrite outcome_of_pipeline, actions_of_pipeline. unfold pipeline.
  destruct (describe_application_versions (svc s) (application args)
              [label args]) as [e | [|v vs]].
  - discriminate.
  - destruct (build s) as [e | zipf] eqn:Hb.
    + rewrite (top_level_build_error s e Hb). discriminate.
    + destruct (upload_fileobj _ _ _ _) as [[counts [e|]] c1];
        [discriminate|].
      destruct (create_application_version c1 _ _ _ _ _) as [failure c2].
      cbn [fst]. unfold registration_outcome.
      destruct failure as [[msg | descr]|]; try discriminate.
      destruct (msg =? already_exists_message (label args))%string;
        [destruct (existing_appver_is_error args)|]; discriminate.
  - destruct (existing_appver_is_error args); [|discriminate].
    intros [= <-]. repeat split. exists v, vs. split; reflexivity.
Qed.

(** X8. Strict mode changes how the process ends and nothing else: with
    and without [--existing-appver-is-error] a run makes the same requests,
    builds the same archive and leaves the services in the same state; the
    strict run can add the printed message, and can turn status 0 into 1,
    never 1 into 0. *)
Theorem strict_mode_sends_the_same_requests
    (application label s3_bucket description : string) (dbg : bool)
    (s : state) :
  let run strict :=
    mkArgs application label s3_bucket description dbg strict in
  services_after (run true) s = services_after (run false) s
  /\ filter (fun e => negb (is_print e)) (actions_of (run true) s)
     = actions_of (run false) s
  /\ exit_code (outcome_of (run false) s) <= exit_code (outcome_of (run true) s).
Proof.
  intros run.
  rewrite !outcome_of_pipeline, !actions_of_pipeline, !services_after_pipeline.
  unfold pipeline, run. cbn [App.application App.label App.s3_bucket
                              App.description App.existing_appver_is_error].
  destruct (describe_application_versions (svc s) application [label])
    as [e | [|v vs]];
    [repeat split; cbn; first [reflexivity | lia] | | repeat split; cbn; first [reflexivity | lia]].
  destruct (build s) as [e | zipf] eqn:Hb.
  - rewrite (top_level_build_error s e Hb). repeat split; cbn; first [reflexivity | lia].
  - destruct (upload_fileobj _ _ _ _) as [[counts [e|]] c1];
      [repeat split; cbn; first [reflexivity | lia]|].
    destruct (create_application_version c1 _ _ _ _ _) as [failure c2].
    repeat split.
    unfold registration_outcome.
    destruct failure as [[msg | descr]|]; [|cbn; lia | cbn; lia].
    destruct (msg =? already_exists_message label)%string; cbn; lia.
Qed.

(** X12. Every run asks the orchestrator once whether the version exists,
    for exactly the given application and label, before it does anything
    else; after that it sends at most one upload and at most one
    registration request: nothing is retried. *)
Theorem one_existence_check_first (args : Args) (s : state) :
  exists rest,
    actions_of args s
    = Describe (application args) [label args]
        (describe_application_versions (svc s) (application args)
           [label args])
      :: rest
    /\ existsb is_describe rest = false
    /\ List.length (filter is_upload rest) <= 1
    /\ List.length (filter is_create rest) <= 1.
Proof.
  rewrite actions_of_pipeline. unfold pipeline.
  destruct (describe_application_versions (svc s) (application args)
              [label args]) as [e | [|v vs]].
  - eexists. repeat split; auto.
  - destruct (build s) as [e | zipf] eqn:Hb.
    + rewrite (top_level_build_error s e Hb). eexists. repeat split; auto.
    + destruct (upload_fileobj _ _ _ _) as [[counts [e|]] c1];
        [eexists; repeat split; auto|].
      destruct (create_application_version c1 _ _ _ _ _) as [failure c2].
      eexists. repeat split; auto.
  - destruct (existing_appver_is_error args); eexists; repeat split; auto.
Qed.

(** X14. The process ends with status 0 in exactly these cases: the
    version is found and the run is not strict; or it is not found, the
    archive is built, the upload is accepted and the registration step
    returns normally, which it also does when the orchestrator answers with
    a [ClientError] other than the already-exists one of a strict run.
    In every other case the status is 1. *)
Theorem status_0_exactly_when (args : Args) (s : state) :
  (exit_code (outcome_of args s) = 0
   <-> match describe_application_versions (svc s) (application args)
               [label args] with
       | inl _ => False
       | inr (_ :: _) => existing_appver_is_error args = false
       | inr [] =>
           exists zipf counts c1,
             fst (_add_files_to_zipfile [] s) = inr zipf
             /\ upload_fileobj (svc s) (s3_bucket args)
                  (s3_key_of (application args) (label args)) (Some zipf)
                = (counts, None, c1)
             /\ match fst (create_application_version c1 (application args)
                             (label args) (description args) (s3_bucket args)
                             (s3_key_of (application args) (label args))) with
                | None => True
                | Some (BotoClientError msg) =>
                    msg <> already_exists_message (label args)
                    \/ existing_appver_is_error args = false
                | Some (BotoOtherError _) => False
                end
       end)
  /\ exit_code (outcome_of args s) <= 1.
Proof.
  rewrite outcome_of_pipeline. unfold pipeline, build.
  destruct (describe_application_versions (svc s) (application args)
              [label args]) as [e | [|v vs]].
  - cbn. split; [split; [discriminate | contradiction] | lia].
  - destruct (fst (_add_files_to_zipfile [] s)) as [e | zipf] eqn:Hb.
    + rewrite (top_level_build_error s e Hb). cbn. split; [|lia].
      split; [discriminate | intros (z & c & c1 & H & _); discriminate].
    + destruct (upload_fileobj _ _ _ _) as [[counts [e|]] c1] eqn:Hu.
      * cbn. split; [|lia].
        split; [discriminate | intros (z & c & c1' & [= <-] & H & _)].
        rewrite Hu in H. discriminate.
      * destruct (create_application_version c1 _ _ _ _ _)
          as [failure c2] eqn:Hc.
        cbn [fst].
        destruct (registration_outcome_status
                    (existing_appver_is_error args) (label args) failure)
          as [Hiff Hle].
        split; [|exact Hle]. rewrite Hiff. split.
        -- intros Hr. exists zipf, counts, c1. rewrite Hc. auto.
        -- intros (z & c & c1' & Hz & H & Hr). injection Hz as <-.
           rewrite Hu in H. injection H as <- <-. now rewrite Hc in Hr.
  - destruct (existing_appver_is_error args); cbn; split; try lia;
      split; auto; discriminate.
Qed.

End MoreOnRuns.

(** * More on the functions: levels, counts and the traversal *)

Module LevelFacts.

Import Spec Shape Run RunFacts BuildFacts App.

Section WithServices.

Context {ext : External}.

Local Open Scope run_scope.

Lemma leveled_ret {A : Type} (a : A) : leveled (ret a).
Proof.
  intros s. split; [reflexivity|]. exists [].
  split; [now rewrite List.app_nil_r | reflexivity].
Qed.

Lemma leveled_raise {A : Type} (e : exn) : leveled (@raise ext A e).
Proof.
  intros s. split; [reflexivity|]. exists [].
  split; [now rewrite List.app_nil_r | reflexivity].
Qed.

Lemma leveled_bind {A B : Type} (m : M A) (k : A -> M B) :
  leveled m -> (forall a, leveled (k a)) -> leveled (bind m k).
Proof.
  intros Hm Hk s. unfold bind.
  destruct (Hm s) as (L1 & new1 & T1 & H1).
  destruct (m s) as [[e | a] s1]; cbn [snd] in *.
  - split; [exact L1|]. exists new1. auto.
  - destruct (Hk a s1) as (L2 & new2 & T2 & H2).
    split; [congruence|]. exists (new1 ++ new2). split.
    + now rewrite T2, T1, List.app_assoc.
    + rewrite forallb_app, H1. rewrite L1 in H2. now rewrite H2.
Qed.

Lemma leveled_try_except {A : Type} (m : M A) (handler : exn -> M A) :
  leveled m -> (forall e, leveled (handler e)) -> leveled (try_except m handler).
Proof.
  intros Hm Hh s. unfold try_except.
  destruct (Hm s) as (L1 & new1 & T1 & H1).
  destruct (m s) as [[e | a] s1]; cbn [snd] in *.
  - destruct (Hh e s1) as (L2 & new2 & T2 & H2).
    split; [congruence|]. exists (new1 ++ new2). split.
    + now rewrite T2, T1, List.app_assoc.
    + rewrite forallb_app, H1. rewrite L1 in H2. now rewrite H2.
  - split; [exact L1|]. exists new1. auto.
Qed.

(** A record is handled only when its level reaches the threshold. *)
Lemma leveled_logging (lvl : level) (fmt : string) (args : list logarg) :
  leveled (logging lvl fmt args).
Proof.
  intros s. unfold logging.
  destruct (Nat.leb (severity (log_level s)) (severity lvl)) eqn:E; cbn.
  - split; [reflexivity|]. exists [Log lvl fmt args].
    split; [reflexivity|]. cbn. now rewrite E.
  - split; [reflexivity|]. exists [].
    split; [now rewrite List.app_nil_r | reflexivity].
Qed.

Lemma leveled_emit (e : event) : is_log e = false -> leveled (emit e).
Proof.
  intros He s. cbn. split; [reflexivity|]. exists [e].
  split; [reflexivity|]. cbn. destruct e; try reflexivity. discriminate.
Qed.

Lemma leveled_pure {A : Type} (f : state -> exn + A) :
  leveled (fun s => (f s, s)).
Proof.
  intros s. split; [reflexivity|]. exists [].
  split; [now rewrite List.app_nil_r | reflexivity].
Qed.

Lemma leveled_set_svc (c : cloud) : leveled (Boto.set_svc c).
Proof.
  intros s. split; [reflexivity|]. exists [].
  split; [cbn; now rewrite List.app_nil_r | reflexivity].
Qed.

Lemma leveled_add_entries (ignore_matches : string -> bool)
    (base_dir : string) (entries : list Fs.DirEntry) :
  forall zipf, leveled (add_entries ignore_matches base_dir entries zipf).
Proof.
  induction entries as [|entry rest IH]; intros zipf; simpl.
  - apply leveled_ret.
  - destruct (ignore_matches (Fs.path entry)).
    + apply leveled_bind; [apply leveled_logging | auto].
    + apply leveled_bind; [apply leveled_logging | intros _].
      apply leveled_bind; [|auto].
      unfold zip_write. apply leveled_bind;
        [exact (leveled_pure (fun s => inr (fs s)))|].
      intros fs. destruct (Zip.write fs zipf _);
        [apply leveled_raise | apply leveled_ret].
Qed.

Lemma leveled_add_files (zipf : Zip.zipfile) :
  leveled (_add_files_to_zipfile zipf).
Proof.
  unfold _add_files_to_zipfile.
  apply leveled_bind.
  { unfold load_ignore_matches. apply leveled_bind;
      [exact (leveled_pure (fun s => inr (fs s)))|].
    intros fs.
    destruct (Fs.isfile fs ".ebignore"); [|destruct (Fs.isfile fs ".gitignore")];
      (apply leveled_bind; [apply leveled_logging | intros; apply leveled_ret]). }
  intros m. apply leveled_bind.
  { unfold getcwd. apply leveled_bind;
      [exact (leveled_pure (fun s => inr (fs s)))|].
    intros fs. destruct (Fs.getcwd fs); [apply leveled_ret | apply leveled_raise]. }
  intros base. apply leveled_bind;
    [exact (leveled_pure (fun s => inr (fs s)))|].
  intros fs. apply leveled_bind; [apply leveled_add_entries | intros zipf'].
  apply leveled_bind; [apply leveled_logging | intros; apply leveled_ret].
Qed.

Lemma leveled_create_zipfile {A : Type} (body : fileobj -> M A) :
  (forall f, leveled (body f)) -> leveled (create_zipfile body).
Proof.
  intros Hbody. unfold create_zipfile.
  apply leveled_bind; [exact (leveled_pure (fun s => inr (fs s)))|].
  intros fs. apply leveled_bind; [now apply leveled_emit | intros _].
  apply leveled_bind; [apply leveled_logging | intros _].
  apply leveled_bind.
  { apply leveled_try_except; [apply leveled_add_files|].
    intros e s. cbn. split; [reflexivity|].
    exists [Sealed (left_in [] s)]. split; reflexivity. }
  intros zipf.
  apply leveled_bind; [now apply leveled_emit | intros _].
  apply leveled_bind; [apply leveled_logging | intros _].
  apply leveled_bind; [apply Hbody | intros r].
  apply leveled_bind; [apply leveled_logging | intros; apply leveled_ret].
Qed.

Lemma leveled_each_progress (counts : list nat) :
  leveled (Boto.each_progress _log_upload_progress counts).
Proof.
  induction counts as [|n rest IH]; simpl.
  - apply leveled_ret.
  - apply leveled_bind; [apply leveled_logging | intros; exact IH].
Qed.

Lemma leveled_upload_appver (f : fileobj) (application label bucket : string) :
  leveled (upload_appver f application label bucket).
Proof.
  unfold upload_appver.
  apply leveled_bind; [apply leveled_logging | intros _].
  apply leveled_bind; [|intros; apply leveled_ret].
  unfold Boto.upload.
  apply leveled_bind; [exact (leveled_pure (fun s => inr (svc s)))|].
  intros c. destruct (upload_fileobj c _ _ _) as [[counts failure] c'].
  apply leveled_bind; [apply leveled_set_svc | intros _].
  apply leveled_bind; [apply leveled_each_progress | intros _].
  apply leveled_bind; [now apply leveled_emit | intros _].
  destruct failure; [apply leveled_raise | apply leveled_ret].
Qed.

Lemma leveled_create_appver
    (application bucket key label description : string) (strict : bool) :
  leveled (create_appver application bucket key label description strict).
Proof.
  unfold create_appver.
  apply leveled_bind; [apply leveled_logging | intros _].
  apply leveled_try_except.
  - unfold Boto.create.
    apply leveled_bind; [exact (leveled_pure (fun s => inr (svc s)))|].
    intros c. destruct (create_application_version c _ _ _ _ _) as [failure c'].
    apply leveled_bind; [apply leveled_set_svc | intros _].
    apply leveled_bind; [now apply leveled_emit | intros _].
    destruct failure; [apply leveled_raise | apply leveled_ret].
  - intros e. destruct e; try apply leveled_raise.
    destruct (message =? already_exists_message label)%string;
      [destruct strict|]; first [apply leveled_raise | apply leveled_logging
                                | apply leveled_ret].
Qed.

Lemma leveled_appver_exists (application label : string) :
  leveled (appver_exists application label).
Proof.
  unfold appver_exists. apply leveled_bind; [|intros; apply leveled_ret].
  unfold Boto.describe.
  apply leveled_bind; [exact (leveled_pure (fun s => inr (svc s)))|].
  intros c. cbv zeta.
  apply leveled_bind; [now apply leveled_emit | intros _].
  destruct (describe_application_versions c _ _);
    [apply leveled_raise | apply leveled_ret].
Qed.

(** Every record of a run is at or above the level [--debug] selects. *)
Lemma script_leveled (args : Args) (s : state) :
  forallb (handled_at (if debug args then DEBUG else INFO))
          (new_events s (snd (script args s))) = true.
Proof.
  pose (rest :=
          found <- appver_exists (application args) (label args) ;;
          if found then
            if existing_appver_is_error args then
              raise (ProgramError
                       ("Application version '" ++ label args
                        ++ "' already exists!")%string)
            else
              logging INFO "Application version '%s' already exists."
                      [ArgStr (label args)]
          else
            s3_key <- create_zipfile (fun fileobj =>
                        upload_appver (seek0 fileobj) (application args)
                          (label args) (s3_bucket args)) ;;
            create_appver (application args) (s3_bucket args) s3_key
              (label args) (description args)
              (existing_appver_is_error args) ;;
            logging INFO "All done!" []).
  assert (leveled rest) as Hrest.
  { apply leveled_bind; [apply leveled_appver_exists | intros found].
    destruct found.
    - destruct (existing_appver_is_error args);
        [apply leveled_raise | apply leveled_logging].
    - apply leveled_bind.
      + apply leveled_create_zipfile. intros f. apply leveled_upload_appver.
      + intros key. apply leveled_bind;
          [apply leveled_create_appver | intros; apply leveled_logging]. }
  set (s0 := mkState (fs s) (svc s) (if debug args then DEBUG else INFO)
               (trace s)).
  assert (main args s = rest s0) as Hmain by reflexivity.
  destruct (Hrest s0) as (_ & new & T & H). cbn [trace log_level s0] in T, H.
  assert (exists extra,
            trace (snd (script args s)) = trace s ++ new ++ extra
            /\ forallb (handled_at (if debug args then DEBUG else INFO)) extra
               = true) as (extra & T' & H').
  { unfold script. rewrite Hmain.
    destruct (rest s0) as [[e | []] s1]; cbn [snd] in T.
    - destruct e; try (exists []; rewrite List.app_nil_r; split;
                       [exact T | reflexivity]).
      exists [Print msg]. cbn. rewrite T, <- List.app_assoc. auto.
    - exists []. rewrite List.app_nil_r. split; [exact T | reflexivity]. }
  unfold new_events.
  rewrite T', skipn_app, skipn_all, Nat.sub_diag. cbn [skipn app].
  now rewrite forallb_app, H, H'.
Qed.

End WithServices.

End LevelFacts.

Module CountFacts.

Import Str Spec Shape Run RunFacts BuildFacts FsFacts App.

Section WithServices.

Context {ext : External}.

Local Open Scope run_scope.

(** [zipf.write] adds one member, after the ones that are there, and the
    member does not depend on them. *)
Lemma write_appends_one (fs : Fs.t) (zipf zipf' : Zip.zipfile)
    (filename : string) :
  Zip.write fs zipf filename = inr zipf' ->
  exists member,
    zipf' = zipf ++ [member] /\ Zip.write fs [] filename = inr [member].
Proof.
  unfold Zip.write.
  destruct (Fs.stat fs filename) as [[data | listing]|]; [| |discriminate];
    destruct (Zip.arcname_of filename); try discriminate;
    intros [= <-]; eexists; split; reflexivity.
Qed.

(** The loop, when it ends without an exception: it has appended, in the
    order of the entries, what [zipf.write] stores for each entry that the
    predicate does not match. *)
Lemma add_entries_members (ignore_matches : string -> bool)
    (base_dir : string) (entries : list Fs.DirEntry) :
  forall zipf s zipf',
    fst (add_entries ignore_matches base_dir entries zipf s) = inr zipf' ->
    exists added,
      zipf' = zipf ++ added
      /\ Forall2
           (fun e member =>
              Zip.write (fs s) []
                (slice_from (String.length base_dir + 1) (Fs.path e))
              = inr [member])
           (filter (fun e => negb (ignore_matches (Fs.path e))) entries)
           added.
Proof.
  induction entries as [|entry rest IH]; intros zipf s zipf' H.
  - injection H as <-. exists []. split; [now rewrite List.app_nil_r|].
    constructor.
  - cbn [add_entries filter] in *.
    destruct (ignore_matches (Fs.path entry)); cbn [negb];
      rewrite bind_logging in H.
    + destruct (IH _ _ _ H) as (added & -> & Hall).
      rewrite logging_fs in Hall. now exists added.
    + unfold bind at 1, zip_write at 1, bind at 1, get_fs in H.
      rewrite logging_fs in H.
      destruct (Zip.write _ zipf _) as [err | zipf1] eqn:W;
        cbn [raise ret fst] in H; [discriminate|].
      destruct (write_appends_one _ _ _ _ W) as (member & -> & W0).
      destruct (IH _ _ _ H) as (added & -> & Hall).
      rewrite logging_fs in Hall.
      exists (member :: added). split.
      * now rewrite <- List.app_assoc.
      * now constructor.
Qed.

(** The entry [_scantree] yields for a regular file: the scanned path
    joined with the names that lead to the file, one after the other. *)
Lemma scan_entry_joined (n : Fs.node) :
  forall path,
    scan_entry path n
    = map (fun f => Fs.mkEntry (fold_left OsPath.join (fst f) path))
          (Fs.files_of_node n).
Proof.
  induction n as [name d | name sub IH] using node_nested_ind; intros path.
  - reflexivity.
  - cbn [scan_entry Fs.files_of_node]. rewrite map_map. cbn [fst fold_left].
    induction sub as [|m sub' IHsub]; [reflexivity|].
    inversion IH as [|? ? Hm Hsub']; subst.
    cbn [flat_map]. rewrite map_app, (Hm (OsPath.join path name)).
    now rewrite (IHsub Hsub').
Qed.

End WithServices.

End CountFacts.

Section MoreOnFunctions.

Import Spec Shape Run App.
Import RunFacts BuildFacts CallFacts PipelineFacts LevelFacts CountFacts.

Context {ext : External}.

(** X1. The registration step returns normally in exactly these cases: the
    request is accepted; it is answered with a [ClientError] whose message
    is not the already-exists one for the label; or it is answered with
    that one and the run is not strict. It raises otherwise: on the
    already-exists answer of a strict run and on any exception that is not
    a [ClientError]. *)
Theorem registration_returns_exactly_when
    (application bucket key label description : string) (strict : bool)
    (s : state) :
  (exists s',
     create_appver application bucket key label description strict s
     = (inr tt, s'))
  <-> match fst (create_application_version
                   (svc s) application label description bucket key) with
      | None => True
      | Some (BotoClientError msg) =>
          msg <> already_exists_message label \/ strict = false
      | Some (BotoOtherError _) => False
      end.
Proof.
  destruct (create_appver_run application bucket key label description
              strict s) as (s' & E & _).
  rewrite E.
  destruct (fst (create_application_version
                   (svc s) application label description bucket key))
    as [[msg | descr]|].
  - destruct (String.eqb_spec msg (already_exists_message label)) as [Hm|Hm].
    + destruct strict; split.
      * intros [s'' H]. discriminate.
      * intros [H|H]; [contradiction | discriminate].
      * auto.
      * intros _. now exists s'.
    + split; [auto | intros _; now exists s'].
  - split; [intros [s'' H]; discriminate | contradiction].
  - split; [auto | intros _; now exists s'].
Qed.

(** X2. When the orchestrator answers the registration with the
    already-exists error for the label and the run is not strict, the step
    returns normally and the last thing it does is to log the warning that
    the version was created before the upload; the warning is handled
    whatever the level of the logger. *)
Theorem benign_race_is_logged_as_warning
    (application bucket key label description : string) (s : state)
    (c' : cloud) :
  create_application_version (svc s) application label description bucket key
  = (Some (BotoClientError (already_exists_message label)), c') ->
  exists before,
    fst (create_appver application bucket key label description false s)
    = inr tt
    /\ svc (snd (create_appver application bucket key label description
                   false s)) = c'
    /\ trace (snd (create_appver application bucket key label description
                     false s))
       = trace s ++ before
         ++ [Create application label description bucket key
               (Some (BotoClientError (already_exists_message label)));
             Log WARNING
               ("The application version '" ++ label
                ++ "' was created before we could upload it.") []]
    /\ actions before = [].
Proof.
  intros Hc. unfold create_appver. rewrite bind_logging.
  pose proof (logging_logged INFO "Creating application version" [] s)
    as (_ & _ & C0 & _ & before & T0 & A0).
  set (s0 := snd (logging INFO "Creating application version" [] s)) in *.
  exists before.
  unfold try_except, Boto.create, bind, Boto.get_svc, Boto.set_svc, emit.
  rewrite C0, Hc. cbn [raise fst snd fs svc trace log_level of_boto].
  rewrite String.eqb_refl. unfold logging. cbn [log_level].
  replace (Nat.leb (severity (log_level s0)) (severity WARNING)) with true
    by (destruct (log_level s0); reflexivity).
  cbn [emit fst snd fs svc trace log_level].
  rewrite T0, <- !List.app_assoc. repeat split. exact A0.
Qed.

(** X9. Without [--debug] a run handles no DEBUG record: every log record
    it adds to the trace is at level INFO or above. *)
Theorem no_debug_record_without_debug (args : Args) (s : state) :
  debug args = false ->
  existsb is_debug_record (new_events s (snd (script args s))) = false
  /\ forallb (handled_at INFO) (new_events s (snd (script args s))) = true.
Proof.
  intros Hd. pose proof (script_leveled args s) as H. rewrite Hd in H.
  split; [|exact H].
  induction (new_events s (snd (script args s))) as [|e rest IH];
    [reflexivity|].
  cbn in H |- *. apply andb_true_iff in H as [He Hrest].
  rewrite (IH Hrest), orb_false_r.
  destruct e as [[| |] ? ?| | | | | |]; try reflexivity. discriminate.
Qed.

(** X10. When the builder ends without an exception, the archive holds
    what it held before, followed, in the order of the traversal, by one
    member for each visited entry whose path the ignore predicate does not
    match: the member that [zipf.write] stores for the name the loop cuts
    out of the path of that entry, [entry.path[len(base_dir) + 1:]]. *)
Theorem builder_appends_one_member_per_unmatched_file (s : state)
    (base_dir : string) (m : string -> bool) (zipf zipf' : Zip.zipfile) :
  Fs.getcwd (fs s) = Some base_dir ->
  fst (load_ignore_matches s) = inr m ->
  fst (_add_files_to_zipfile zipf s) = inr zipf' ->
  exists added,
    zipf' = zipf ++ added
    /\ Forall2
         (fun e member =>
            Zip.write (fs s) []
              (Str.slice_from (String.length base_dir + 1) (Fs.path e))
            = inr [member])
         (filter (fun e => negb (m (Fs.path e)))
                 (_scantree base_dir (Fs.cwd_listing (fs s))))
         added.
Proof.
  intros Hcwd Hload Hb.
  pose proof (proj1 quiet_load_ignore_matches s) as (Hfs & _).
  unfold _add_files_to_zipfile, bind at 1 in Hb.
  destruct (load_ignore_matches s) as [[e | m'] s1]; simpl in Hload, Hfs;
    [discriminate | injection Hload as ->].
  unfold bind at 1, getcwd, bind at 1, get_fs in Hb.
  rewrite Hfs, Hcwd in Hb. cbn [ret] in Hb.
  unfold bind at 1 in Hb. rewrite Hfs in Hb. unfold bind at 1 in Hb.
  destruct (add_entries m base_dir _ zipf s1) as [[e | z] s2] eqn:E;
    [discriminate|].
  rewrite bind_logging in Hb. injection Hb as <-.
  rewrite <- Hfs. apply (add_entries_members m base_dir _ zipf s1).
  rewrite Hfs. now rewrite E.
Qed.

(** X11. [_scantree] yields the regular files of the tree and nothing
    else: in the order of the listings, one entry for each regular file,
    however deep, whose path is the scanned path joined with the names that
    lead to the file; a directory is descended into and gives no entry of
    its own, so that an empty one gives none. *)
Theorem scantree_yields_one_entry_per_file (path : string)
    (listing : list Fs.node) :
  _scantree path listing
  = map (fun f => Fs.mkEntry (fold_left OsPath.join (fst f) path))
        (Fs.files_under listing)
  /\ (forall name sub,
        _scantree path [Fs.Dir name sub]
        = _scantree (OsPath.join path name) sub)
  /\ (forall name, _scantree path [Fs.Dir name []] = []).
Proof.
  split; [|split].
  - unfold _scantree, Fs.files_under.
    induction listing as [|n rest IH]; [reflexivity|].
    cbn [flat_map]. now rewrite map_app, scan_entry_joined, IH.
  - intros name sub. unfold _scantree. cbn [flat_map scan_entry].
    apply List.app_nil_r.
  - reflexivity.
Qed.

(** X16. Below the root, an ignore predicate that answers the relative
    path of a file as it answers the path the loop hands to it (it takes a
    relative path as relative to the working directory) decides by the
    relative path: the files whose relative path it matches are skipped,
    and the others are added, in traversal order, under their relative
    path and with their contents. *)
Theorem relative_path_decides_below_root (s : state)
    (listing : list Fs.node) (m : string -> bool) :
  Fs.wf_listing (Fs.root (fs s)) = true ->
  Fs.cwd (fs s) <> [] ->
  Fs.lookup (Fs.root (fs s)) (Fs.cwd (fs s)) = Some (Fs.FoundDir listing) ->
  fst (load_ignore_matches s) = inr m ->
  (forall f, In f (Fs.files_under listing) ->
     m ("/" ++ Str.join_sep (Fs.cwd (fs s)) ++ "/"
        ++ Str.join_sep (fst f))%string
     = m (Str.join_sep (fst f))) ->
  fst (_add_files_to_zipfile [] s)
  = inr (map (fun f => Zip.mkEntry (Str.join_sep (fst f)) false (snd f))
           (filter (fun f => negb (m (Str.join_sep (fst f))))
                   (Fs.files_under listing))).
Proof.
  intros Hwf Hne Hcwd Hload Hsame.
  rewrite (add_files_below_root s listing m Hwf Hne Hcwd Hload).
  do 2 f_equal. apply filter_ext_in. intros f Hin.
  now rewrite (Hsame f Hin).
Qed.

(** X13. With neither [.ebignore] nor [.gitignore] in it, a working
    directory below the root is archived whole: every regular file, at any
    depth, under its relative path and with its contents, in traversal
    order. *)
Theorem without_ignore_file_everything_is_archived (s : state)
    (listing : list Fs.node) :
  Fs.wf_listing (Fs.root (fs s)) = true ->
  Fs.cwd (fs s) <> [] ->
  Fs.lookup (Fs.root (fs s)) (Fs.cwd (fs s)) = Some (Fs.FoundDir listing) ->
  ignore_file (fs s) ".ebignore" = None ->
  ignore_file (fs s) ".gitignore" = None ->
  fst (_add_files_to_zipfile [] s)
  = inr (map (fun f => Zip.mkEntry (Str.join_sep (fst f)) false (snd f))
           (Fs.files_under listing)).
Proof.
  intros Hwf Hne Hcwd He Hg.
  destruct (load_ignore_matches_result s) as (m & Hload & Hm).
  unfold ignore_file in He, Hg.
  assert (m = fun _ => false) as ->.
  { destruct (Fs.find_child ".ebignore" (Fs.cwd_listing (fs s)))
      as [[? ?|? ?]|]; try discriminate;
      destruct (Fs.find_child ".gitignore" (Fs.cwd_listing (fs s)))
        as [[? ?|? ?]|]; try discriminate; exact Hm. }
  rewrite (add_files_below_root s listing _ Hwf Hne Hcwd Hload).
  f_equal. f_equal.
  apply forallb_filter_id, forallb_forall. reflexivity.
Qed.

End MoreOnFunctions.

(** * More concrete runs *)

Section MoreRuns.

Import Spec Shape Run App.

(** X3 at work: the orchestrator cannot be reached. *)
Lemma unreachable_orchestrator_run :
  outcome_of (Sim.args false false)
    (Scripted.start Sim.project_fs Scripted.unreachable)
  = Uncaught (OtherBotoError "EndpointConnectionError")
  /\ exit_code (outcome_of (Sim.args false false)
                  (Scripted.start Sim.project_fs Scripted.unreachable)) = 1
  /\ actions_of (Sim.args false false)
       (Scripted.start Sim.project_fs Scripted.unreachable)
     = [Describe "myapp" ["v42"]
          (inl (BotoOtherError "EndpointConnectionError"))]
  /\ services_after (Sim.args false false)
       (Scripted.start Sim.project_fs Scripted.unreachable)
     = Scripted.unreachable.
Proof.
  exact (existence_check_error_propagates (Sim.args false false)
           (Scripted.start Sim.project_fs Scripted.unreachable)
           (BotoOtherError "EndpointConnectionError") eq_refl).
Defined.

(** X7 at work: in ["/"] with the one file [a], the name handed to
    [zipf.write] is empty and the write raises; the archive closed is
    empty. *)
Lemma failing_build_run :
  outcome_of (Sim.args false false)
    (Scripted.start Scripted.lonely_root_fs Scripted.accepting)
  = Uncaught (FileNotFoundError "")
  /\ exit_code (outcome_of (Sim.args false false)
                  (Scripted.start Scripted.lonely_root_fs Scripted.accepting))
     = 1
  /\ actions_of (Sim.args false false)
       (Scripted.start Scripted.lonely_root_fs Scripted.accepting)
     = [Describe "myapp" ["v42"] (inr []); TempFile 3; Sealed []]
  /\ existsb is_upload
       (actions_of (Sim.args false false)
          (Scripted.start Scripted.lonely_root_fs Scripted.accepting)) = false
  /\ existsb is_create
       (actions_of (Sim.args false false)
          (Scripted.start Scripted.lonely_root_fs Scripted.accepting)) = false
  /\ services_after (Sim.args false false)
       (Scripted.start Scripted.lonely_root_fs Scripted.accepting)
     = Scripted.accepting.
Proof.
  exact (build_error_stops_the_run (Sim.args false false)
           (Scripted.start Scripted.lonely_root_fs Scripted.accepting)
           (FileNotFoundError "") eq_refl eq_refl).
Defined.

(** X4 at work: the bucket refuses the archive of [/srv/plain]. *)
Lemma refused_upload_run :
  outcome_of (Sim.args false false)
    (Scripted.start Scripted.plain_fs Scripted.bucket_denied)
  = Uncaught (ClientError "Access Denied")
  /\ exit_code (outcome_of (Sim.args false false)
                  (Scripted.start Scripted.plain_fs Scripted.bucket_denied))
     = 1
  /\ actions_of (Sim.args false false)
       (Scripted.start Scripted.plain_fs Scripted.bucket_denied)
     = [Describe "myapp" ["v42"] (inr []);
        TempFile 3;
        Sealed [Zip.mkEntry "a/b.txt" false "B"; Zip.mkEntry "c.txt" false "C"];
        Upload "bkt" "myapp/v42.zip"
          (Some [Zip.mkEntry "a/b.txt" false "B";
                 Zip.mkEntry "c.txt" false "C"])
          (Some (BotoClientError "Access Denied"))]
  /\ existsb is_create
       (actions_of (Sim.args false false)
          (Scripted.start Scripted.plain_fs Scripted.bucket_denied)) = false
  /\ services_after (Sim.args false false)
       (Scripted.start Scripted.plain_fs Scripted.bucket_denied)
     = Scripted.bucket_denied.
Proof.
  exact (upload_error_stops_before_registration (Sim.args false false)
           (Scripted.start Scripted.plain_fs Scripted.bucket_denied)
           [Zip.mkEntry "a/b.txt" false "B"; Zip.mkEntry "c.txt" false "C"]
           [] (BotoClientError "Access Denied") Scripted.bucket_denied
           eq_refl eq_refl eq_refl).
Defined.

(** X6 at work: the registration of the first run in [/srv/app]. *)
Lemma registration_run :
  exists zipf,
    fst (_add_files_to_zipfile [] Sim.fresh) = inr zipf
    /\ actions_of (Sim.args false false) Sim.fresh
       = [Describe "myapp" ["v42"] (inr []);
          TempFile 3;
          Sealed zipf;
          Upload "bkt" "myapp/v42.zip" (Some zipf) None;
          Create "myapp" "v42" "" "bkt" "myapp/v42.zip" None].
Proof.
  apply (registration_follows_accepted_upload (Sim.args false false)
           Sim.fresh "myapp" "v42" "" "bkt" "myapp/v42.zip" None).
  vm_compute. tauto.
Defined.

(** X5 at work: the strict run that finds [v42]. *)
Lemma clean_exit_run :
  1 = 1
  /\ existing_appver_is_error (Sim.args true false) = true
  /\ exists v versions,
       Sim.describe Sim.v42_registered "myapp" ["v42"] = inr (v :: versions)
       /\ actions_of (Sim.args true false) Sim.registered_v42
          = [Describe "myapp" ["v42"] (inr (v :: versions));
             Print "Application version 'v42' already exists!"].
Proof.
  apply (clean_exit_only_for_strict_conflict (Sim.args true false)
           Sim.registered_v42 1).
  vm_compute. reflexivity.
Defined.

(** X9 at work: the first run in [/srv/app], without [--debug]. *)
Lemma quiet_run_without_debug :
  existsb is_debug_record
    (new_events Sim.fresh (snd (script (Sim.args false false) Sim.fresh)))
  = false
  /\ forallb (handled_at INFO)
       (new_events Sim.fresh (snd (script (Sim.args false false) Sim.fresh)))
     = true.
Proof.
  exact (no_debug_record_without_debug (Sim.args false false) Sim.fresh
           eq_refl).
Defined.

(** X2 at work: [v42] was registered by somebody else in the meantime. *)
Lemma benign_race_run :
  exists before,
    fst (create_appver "myapp" "bkt" "myapp/v42.zip" "v42" "" false Sim.raced)
    = inr tt
    /\ svc (snd (create_appver "myapp" "bkt" "myapp/v42.zip" "v42" "" false
                   Sim.raced))
       = Sim.mkCloud [] [] None
    /\ trace (snd (create_appver "myapp" "bkt" "myapp/v42.zip" "v42" "" false
                     Sim.raced))
       = trace Sim.raced ++ before
         ++ [Create "myapp" "v42" "" "bkt" "myapp/v42.zip"
               (Some (BotoClientError
                        "Application Version v42 already exists."));
             Log WARNING
               "The application version 'v42' was created before we could upload it."
               []]
    /\ actions before = [].
Proof.
  exact (benign_race_is_logged_as_warning "myapp" "bkt" "myapp/v42.zip" "v42"
           "" Sim.raced (Sim.mkCloud [] [] None) eq_refl).
Defined.

(** X16 at work in [/srv/app], where the ignore file names [app.py]. *)
Lemma relative_path_run :
  fst (_add_files_to_zipfile [] Sim.fresh)
  = inr [Zip.mkEntry "static/site.css" false "body{}";
         Zip.mkEntry ".ebignore" false "app.py"].
Proof.
  refine (relative_path_decides_below_root Sim.fresh Sim.project
            (Sim.parse "/srv/app" "app.py")
            eq_refl (fun H => nil_cons (eq_sym H)) eq_refl eq_refl _).
  intros f [<-|[<-|[<-|[]]]]; reflexivity.
Defined.

(** X10 at work: the archive of [/srv/app], where [app.py] is ignored. *)
Lemma member_count_run :
  exists added,
    [Zip.mkEntry "static/site.css" false "body{}";
     Zip.mkEntry ".ebignore" false "app.py"]
    = [] ++ added
    /\ Forall2
         (fun e member =>
            Zip.write Sim.project_fs [] (Str.slice_from 9 (Fs.path e))
            = inr [member])
         [Fs.mkEntry "/srv/app/static/site.css";
          Fs.mkEntry "/srv/app/.ebignore"]
         added.
Proof.
  exact (builder_appends_one_member_per_unmatched_file Sim.fresh "/srv/app"
           (Sim.parse "/srv/app" "app.py") []
           [Zip.mkEntry "static/site.css" false "body{}";
            Zip.mkEntry ".ebignore" false "app.py"]
           eq_refl eq_refl eq_refl).
Defined.

(** X13 at work: [/srv/plain] has no ignore file. *)
Lemma plain_directory_run :
  fst (_add_files_to_zipfile []
         (Scripted.start Scripted.plain_fs Scripted.accepting))
  = inr [Zip.mkEntry "a/b.txt" false "B"; Zip.mkEntry "c.txt" false "C"].
Proof.
  exact (without_ignore_file_everything_is_archived
           (Scripted.start Scripted.plain_fs Scripted.accepting)
           Scripted.plain eq_refl (fun H => nil_cons (eq_sym H)) eq_refl
           eq_refl eq_refl).
Defined.

End MoreRuns.
